(** * Voice sandwich demo: the event pipeline and the order skills

    A shallow embedding of
    - [components/typescript/src/index.ts]: the Agent Stage ([agentStream]),
      the tasks of the Transcription Stage ([sttStream]) and of the Synthesis
      Stage ([ttsStream]), the ingress handler ([onMessage]) and the chain of
      the stages with its teardown ([onClose]);
    - [components/typescript/src/agent/skills/order.ts]: [addToOrder],
      [removeFromOrder], [cancelOrder] and [getOrderStatus];
    - the subagents module: [classifyTask].

    Conventions of the embedding.
    - A JavaScript string is a [string] whose characters are read as UTF-16
      code units below 256 (the Latin-1 range).
    - An async generator run on a finite input is the list of the events it
      yields, in order; [yield] appends to that list.
    - Effects are threaded through a state-and-exception monad [M]: a
      computation either returns ([Ok]) or throws ([Threw]), as a JavaScript
      block does.
    - A JavaScript number is a [float], an IEEE 754 double, with its
      addition, its comparison and its rendering [Number::toString].
    - [console.log] and [console.error] are not recorded and are taken to
      return normally. Their arguments are evaluated as the code does: the
      [JSON.stringify] rendering of the error in the handler of
      [agentStream] throws on an error that it cannot render.
    - The external collaborators (agent, synthesizer), the clock [Date.now]
      and the generator [uuidv4] are parameters; calls made to the
      collaborators are recorded in the state.
    - The two tasks of [ttsStream] share only the passthrough queue; the
      stage's output is the order in which their pushes arrive, which a
      schedule decides.
    - A whole session is followed to the point where nothing more can
      happen: each task has returned, has thrown, or waits at an [await] that
      is never answered ([Session]).
    - [confirmOrder] is not embedded: its order number is random. *)

From Stdlib Require Import ZArith Ascii String Lia.
From Stdlib Require Import PrimFloat SpecFloat FloatOps.
From stdpp Require Import base option list strings gmap pretty.

Local Open Scope Z_scope.

(** ** Computations that may throw *)

Module Js.

(** A thrown JavaScript value, by what the code does with it: its message,
    and what [JSON.stringify(error, null, 2)] makes of it, a text or, for a
    value that holds a circular reference or a BigInt, a thrown [TypeError]
    ([None]). *)
Record Error : Type := mkError {
  error_message : string;
  error_json : option string;
}.

Inductive Result (A : Type) : Type :=
| Ok (a : A)
| Threw (e : Error).
Arguments Ok {A} a.
Arguments Threw {A} e.

Definition M (S A : Type) : Type := S → Result A * S.

Definition ret {S A} (a : A) : M S A := λ s, (Ok a, s).

Definition bind {S A B} (m : M S A) (k : A → M S B) : M S B :=
  λ s, match m s with
       | (Ok a, s') => k a s'
       | (Threw e, s') => (Threw e, s')
       end.

Definition throw {S A} (e : Error) : M S A := λ s, (Threw e, s).

(** [try { body } catch (error) { handler error }] *)
Definition try_catch {S A} (body : M S A) (handler : Error → M S A) : M S A :=
  λ s, match body s with
       | (Ok a, s') => (Ok a, s')
       | (Threw e, s') => handler e s'
       end.

(** [try { body } finally { cleanup }]: the cleanup always runs; when it
    throws, its exception replaces the outcome of the body. *)
Definition try_finally {S A} (body : M S A) (cleanup : M S unit) : M S A :=
  λ s, match body s with
       | (r, s') =>
           match cleanup s' with
           | (Ok _, s'') => (r, s'')
           | (Threw e, s'') => (Threw e, s'')
           end
       end.

(** The [TypeError] that [JSON.stringify] throws; it has no enumerable
    property, and is itself rendered as an empty object. *)
Definition TypeError : Error := mkError "TypeError" (Some "{}").

(** [JSON.stringify(error, null, 2)] *)
Definition JSON_stringify {S} (error : Error) : M S string :=
  match error_json error with
  | Some text => ret text
  | None => throw TypeError
  end.

#[global] Instance M_ret {S} : MRet (M S) := @ret S.
#[global] Instance M_bind {S} : MBind (M S) := λ A B k m, bind m k.

(** [for (const x of l) { body x }] *)
Fixpoint for_of {S A} (l : list A) (body : A → M S unit) : M S unit :=
  match l with
  | [] => ret tt
  | x :: l' => bind (body x) (λ _, for_of l' body)
  end.

End Js.
Import Js.

(** ** Strings *)

Module JsString.

(** ECMAScript WhiteSpace and LineTerminator code units below 256:
    TAB, LF, VT, FF, CR, SP and NBSP. *)
Definition isWhiteSpace (c : ascii) : bool :=
  let n := N_of_ascii c in
  ((9 <=? n) && (n <=? 13) || (n =? 32) || (n =? 160))%N.

Fixpoint trimStart_list (s : list ascii) : list ascii :=
  match s with
  | c :: s' => if isWhiteSpace c then trimStart_list s' else s
  | [] => []
  end.

Definition trim_list (s : list ascii) : list ascii :=
  rev (trimStart_list (rev (trimStart_list s))).

(** [String.prototype.trim] *)
Definition trim (s : string) : string :=
  string_of_list_ascii (trim_list (list_ascii_of_string s)).

(** [String.prototype.toLowerCase] on the Latin-1 range: A-Z, and the
    accented capitals U+00C0-U+00DE except the multiplication sign. *)
Definition toLowerCase_char (c : ascii) : ascii :=
  let n := N_of_ascii c in
  if ((65 <=? n) && (n <=? 90) || (192 <=? n) && (n <=? 222) && negb (n =? 215))%N
  then ascii_of_N (n + 32) else c.

Fixpoint toLowerCase (s : string) : string :=
  match s with
  | EmptyString => EmptyString
  | String c s' => String (toLowerCase_char c) (toLowerCase s')
  end.

(** [Array.prototype.join] with the empty separator. *)
Definition join (l : list string) : string := String.concat EmptyString l.

(** Truthiness of a string: the empty string is falsy. *)
Definition truthy (s : string) : bool :=
  match s with EmptyString => false | _ => true end.

(** [String.prototype.includes]: whether [k] occurs in [s] at some index. *)
Fixpoint startsWith_list (k s : list ascii) : bool :=
  match k, s with
  | [], _ => true
  | c :: k', d :: s' => bool_decide (c = d) && startsWith_list k' s'
  | _ :: _, [] => false
  end.

Fixpoint includes_list (s k : list ascii) : bool :=
  startsWith_list k s
  || match s with
     | [] => false
     | _ :: s' => includes_list s' k
     end.

Definition includes (s k : string) : bool :=
  includes_list (list_ascii_of_string s) (list_ascii_of_string k).

End JsString.
Import JsString.

(** ** Regular expressions

  The fragment of ECMAScript patterns that [greetingPattern] uses, with the
  continuation-passing matcher of the language specification: a matcher
  takes the current position, the rest of the input and a continuation to
  run on what it leaves. The [i] flag compares canonicalised characters. *)

Module RegExp.

Inductive regex : Type :=
| Empty
| Char (c : ascii)
| Seq (r1 r2 : regex)
| Alt (r1 r2 : regex)
| Opt (r : regex)
| AssertStart
| AssertEnd.

(** Canonicalize of the specification (no [u] flag) on the Latin-1 range:
    the upper-case mapping, kept only when it stays a single code unit and
    does not send a non-ASCII character to an ASCII one. *)
Definition canonicalize (c : ascii) : ascii :=
  let n := N_of_ascii c in
  if ((97 <=? n) && (n <=? 122) || (224 <=? n) && (n <=? 254) && negb (n =? 247))%N
  then ascii_of_N (n - 32) else c.

Definition char_matches (ignoreCase : bool) (p c : ascii) : bool :=
  if ignoreCase then bool_decide (canonicalize p = canonicalize c)
  else bool_decide (p = c).

Fixpoint run (ignoreCase : bool) (r : regex) (pos : nat) (s : list ascii)
    (k : nat → list ascii → bool) : bool :=
  match r with
  | Empty => k pos s
  | Char p =>
      match s with
      | c :: s' => char_matches ignoreCase p c && k (S pos) s'
      | [] => false
      end
  | Seq r1 r2 => run ignoreCase r1 pos s (λ pos' s', run ignoreCase r2 pos' s' k)
  | Alt r1 r2 => run ignoreCase r1 pos s k || run ignoreCase r2 pos s k
  | Opt r1 => run ignoreCase r1 pos s k || k pos s
  | AssertStart => if decide (pos = 0%nat) then k pos s else false
  | AssertEnd => match s with [] => k pos s | _ :: _ => false end
  end.

(** [RegExp.prototype.test] for a pattern without the [g] and [y] flags:
    a match is attempted at every start index, from 0. *)
Definition test (ignoreCase : bool) (r : regex) (s : string) : bool :=
  let l := list_ascii_of_string s in
  existsb (λ i, run ignoreCase r i (drop i l) (λ _ _, true))
          (seq 0 (S (length l))).

(** A literal word. *)
Fixpoint word (w : list ascii) : regex :=
  match w with
  | [] => Empty
  | c :: w' => Seq (Char c) (word w')
  end.

Definition lit (w : string) : regex := word (list_ascii_of_string w).

End RegExp.

(** ** Events ([types.ts], as used by [index.ts]) *)

(** A JSON value that the stages only pass along (tool arguments). *)
Definition Json := string.

Inductive VoiceAgentEvent : Type :=
| stt_chunk (transcript : string) (ts : Z)
| stt_output (transcript : string) (ts : Z)
| agent_chunk (text : string) (ts : Z)
| tool_call (id name : string) (args : Json) (ts : Z)
| tool_result (toolCallId name result : string) (ts : Z)
| agent_end (ts : Z)
| tts_chunk (audio : string) (ts : Z).

#[global] Instance VoiceAgentEvent_eq_dec : EqDecision VoiceAgentEvent.
Proof. solve_decision. Defined.

Definition is_agent_end (e : VoiceAgentEvent) : bool :=
  match e with agent_end _ => true | _ => false end.
Definition is_stt_output (e : VoiceAgentEvent) : bool :=
  match e with stt_output _ _ => true | _ => false end.

(** ** The agent collaborator (LangChain's [agent.stream]) *)

Record ToolCall : Type := mkToolCall {
  tc_id : option string;          (* [toolCall.id], possibly undefined *)
  tc_name : string;
  tc_args : Json;
}.

(** [message.content]: a string, or structured content given with its
    [JSON.stringify] rendering. *)
Inductive MessageContent : Type :=
| TextContent (s : string)
| StructuredContent (rendered : string).

Inductive Message : Type :=
| AIMessage (text : string) (tool_calls : option (list ToolCall))
| ToolMessage (tool_call_id : option string) (name : option string)
    (content : MessageContent)
| OtherMessage.

(** What one call of [agent.stream] does: it yields [run_messages], then its
    stream ends, or throws [e] when [run_error = Some e]. A call that rejects
    before yielding anything has no messages and an error. *)
Record AgentRun : Type := mkAgentRun {
  run_messages : list Message;
  run_error : option Error;
}.

(** The arguments of one call: [{ messages: [new HumanMessage(t)] }] and the
    options object, of which [streamMode] and [configurable.thread_id]
    are kept. *)
Record AgentCall : Type := mkAgentCall {
  call_messages : list string;
  call_streamMode : string;
  call_thread_id : option string;
}.

(** ** The environment of a session *)

(** [uuidv4] and [Date.now] answer by how many times they were called
    before; the agent answers by the calls it received before (its memory)
    and the present one. *)
Record Env : Type := mkEnv {
  uuid_of : nat → string;
  now_of : nat → Z;
  agent_of : list AgentCall → AgentCall → AgentRun;
}.

(** ** The Agent Stage: [agentStream] *)

Module Agent.

Record World : Type := mkWorld {
  yielded : list VoiceAgentEvent;     (* what the generator has yielded *)
  uuid_calls : nat;                   (* calls of [uuidv4] so far *)
  clock_reads : nat;                  (* calls of [Date.now] so far *)
  agent_calls : list AgentCall;       (* calls of [agent.stream] so far *)
}.

Definition init : World := mkWorld [] 0 0 [].

Definition yield (e : VoiceAgentEvent) : M World unit :=
  λ w, (Ok tt, mkWorld (yielded w ++ [e]) (uuid_calls w) (clock_reads w) (agent_calls w)).

Definition uuidv4 (env : Env) : M World string :=
  λ w, (Ok (uuid_of env (uuid_calls w)),
        mkWorld (yielded w) (S (uuid_calls w)) (clock_reads w) (agent_calls w)).

Definition Date_now (env : Env) : M World Z :=
  λ w, (Ok (now_of env (clock_reads w)),
        mkWorld (yielded w) (uuid_calls w) (S (clock_reads w)) (agent_calls w)).

(** [await agent.stream(input, options)]: the call is recorded and the run
    it starts is returned. *)
Definition agent_stream (env : Env) (call : AgentCall) : M World AgentRun :=
  λ w, (Ok (agent_of env (agent_calls w) call),
        mkWorld (yielded w) (uuid_calls w) (clock_reads w) (agent_calls w ++ [call])).

(** [for await (const [message] of stream) { body message }]: the body runs
    on each message the run yields; then the iteration ends, or throws. *)
Definition for_await_stream (run : AgentRun) (body : Message → M World unit)
    : M World unit :=
  for_of (run_messages run) body ;;
  match run_error run with
  | Some e => throw e
  | None => mret tt
  end.

(** [/^(hello|hi|hey|good morning|good afternoon|good evening)\.?$/i] *)
Definition greetingPattern : RegExp.regex :=
  RegExp.Seq RegExp.AssertStart
   (RegExp.Seq
     (RegExp.Alt (RegExp.lit "hello")
     (RegExp.Alt (RegExp.lit "hi")
     (RegExp.Alt (RegExp.lit "hey")
     (RegExp.Alt (RegExp.lit "good morning")
     (RegExp.Alt (RegExp.lit "good afternoon")
                 (RegExp.lit "good evening"))))))
     (RegExp.Seq (RegExp.Opt (RegExp.Char "."%char)) RegExp.AssertEnd)).

Definition greetingPattern_test (s : string) : bool :=
  RegExp.test true greetingPattern s.

Definition GREETING : string :=
  "Hi! Welcome to our sandwich shop. What size sandwich would you like? We have small, medium, or large.".

(** The body of [for (const toolCall of message.tool_calls)]. *)
Definition emit_tool_call (env : Env) (toolCall : ToolCall) : M World unit :=
  id ← match tc_id toolCall with
       | Some i => mret i
       | None => uuidv4 env
       end;
  ts ← Date_now env;
  yield (tool_call id (tc_name toolCall) (tc_args toolCall) ts).

Definition content_text (c : MessageContent) : string :=
  match c with
  | TextContent s => s
  | StructuredContent rendered => rendered
  end.

(** The body of [for await (const [message] of stream)]. *)
Definition on_message (env : Env) (message : Message) : M World unit :=
  match message with
  | AIMessage text tool_calls =>
      (if truthy text
       then ts ← Date_now env; yield (agent_chunk text ts)
       else mret tt) ;;
      match tool_calls with
      | Some calls => for_of calls (emit_tool_call env)
      | None => mret tt
      end
  | ToolMessage tool_call_id name content =>
      ts ← Date_now env;
      yield (tool_result (default EmptyString tool_call_id) (default "unknown" name)
                         (content_text content) ts)
  | OtherMessage => mret tt
  end.

(** What [agentStream] does on an [stt_output] event after re-emitting it:
    the fast path for greetings, or one call of the agent inside
    [try]/[catch]. The handler logs the error, then its rendering by
    [JSON.stringify], and yields the turn end; it is under no other [try], so
    that what the rendering throws leaves the generator. *)
Definition on_stt_output (env : Env) (transcript : string) : M World unit :=
  if greetingPattern_test (trim transcript) then
    ts ← Date_now env;
    yield (agent_chunk GREETING ts) ;;
    ts ← Date_now env;
    yield (agent_end ts)
  else
    try_catch
      (stream ← agent_stream env
                 {| call_messages := [transcript];
                    call_streamMode := "messages";
                    call_thread_id := None |};
       for_await_stream stream (on_message env) ;;
       ts ← Date_now env;
       yield (agent_end ts))
      (λ error,
       details ← JSON_stringify error;
       ts ← Date_now env;
       yield (agent_end ts)).

(** The body of [for await (const event of eventStream)]. *)
Definition on_event (env : Env) (event : VoiceAgentEvent) : M World unit :=
  yield event ;;
  match event with
  | stt_output transcript _ => on_stt_output env transcript
  | _ => mret tt
  end.

Definition agentStream (env : Env) (eventStream : list VoiceAgentEvent)
    : M World unit :=
  threadId ← uuidv4 env;
  for_of eventStream (on_event env).

(** The events the stage yields on a finite input. *)
Definition output (env : Env) (eventStream : list VoiceAgentEvent)
    : list VoiceAgentEvent :=
  yielded (snd (agentStream env eventStream init)).

End Agent.

(** ** The Event Queue

    Modelled from the spec: the Event Queue ([writableIterator] of
    [utils.ts], which is not among the sources). [push] enqueues an item,
    [cancel] marks that no further item will arrive, and the single consumer
    receives the items in arrival order. *)

Module EventQueue.

Record t (A : Type) : Type := mk {
  items : list A;
  cancelled : bool;
}.
Arguments mk {A} items cancelled.
Arguments items {A} _.
Arguments cancelled {A} _.

Definition empty {A} : t A := mk [] false.

Definition push {A} (item : A) : M (t A) unit :=
  λ q, (Ok tt, mk (items q ++ [item]) (cancelled q)).

Definition cancel {A} : M (t A) unit :=
  λ q, (Ok tt, mk (items q) true).

(** Two tasks push into one queue; [schedule] says whose push arrives next
    ([true]: the first task). When one task has nothing left, or the schedule
    runs out, the remaining pushes arrive in their own order. *)
Fixpoint arrivals {A} (schedule : list bool) (first second : list A) : list A :=
  match schedule, first, second with
  | true :: schedule', x :: first', _ => x :: arrivals schedule' first' second
  | false :: schedule', _, y :: second' => y :: arrivals schedule' first second'
  | _, _, _ => first ++ second
  end.

End EventQueue.

(** ** The Synthesis Stage: [ttsStream] *)

Module Synthesis.

(** Calls made to the synthesizer ([CartesiaTTS]). *)
Inductive TtsCall : Type :=
| SendText (text : string)
| Close.

Record World : Type := mkWorld {
  passthrough : EventQueue.t VoiceAgentEvent;  (* pushes of the producer *)
  tts_calls : list TtsCall;
}.

Definition init : World := mkWorld EventQueue.empty [].

Definition passthrough_push (e : VoiceAgentEvent) : M World unit :=
  λ w, (Ok tt, mkWorld (snd (EventQueue.push e (passthrough w))) (tts_calls w)).

(** [await tts.sendText(text)] and [await tts.close()]: recorded; the
    synthesizer is taken to accept them. *)
Definition tts_sendText (text : string) : M World unit :=
  λ w, (Ok tt, mkWorld (passthrough w) (tts_calls w ++ [SendText text])).

Definition tts_close : M World unit :=
  λ w, (Ok tt, mkWorld (passthrough w) (tts_calls w ++ [Close])).

(** The body of the producer's [for await (const event of eventStream)];
    the local variable [buffer] is passed in and returned. *)
Definition on_event (buffer : list string) (event : VoiceAgentEvent)
    : M World (list string) :=
  passthrough_push event ;;
  let buffer :=
    match event with
    | agent_chunk text _ => buffer ++ [text]
    | _ => buffer
    end in
  match event with
  | agent_end _ =>
      let text := join buffer in
      tts_sendText text ;;
      mret []
  | _ => mret buffer
  end.

Fixpoint producer_loop (eventStream : list VoiceAgentEvent) (buffer : list string)
    : M World (list string) :=
  match eventStream with
  | [] => mret buffer
  | event :: rest => buffer' ← on_event buffer event; producer_loop rest buffer'
  end.

Definition producer (eventStream : list VoiceAgentEvent) : M World unit :=
  try_finally (producer_loop eventStream [] ;; mret tt) tts_close.

(** The texts sent to the synthesizer, in order. *)
Definition sent_texts (w : World) : list string :=
  omap (λ c, match c with SendText text => Some text | Close => None end)
       (tts_calls w).

(** What the stage yields: the arrivals in the passthrough queue of the
    producer's pushes and of the consumer's pushes (the synthesizer's own
    events [audio]), under a schedule of the two tasks. *)
Definition ttsStream (schedule : list bool) (eventStream audio : list VoiceAgentEvent)
    : list VoiceAgentEvent :=
  EventQueue.arrivals schedule
    (EventQueue.items (passthrough (snd (producer eventStream init))))
    audio.

End Synthesis.

(** ** The ingress adapter: [onMessage] *)

Module Ingress.

(** The payload of a WebSocket message event. *)
Inductive MessageData : Type :=
| BufferData (bytes : list Byte.byte)         (* a Node [Buffer] *)
| ArrayBufferData (bytes : list Byte.byte)    (* an [ArrayBuffer] *)
| TextData (text : string)                    (* a text frame *)
| BlobData (bytes : list Byte.byte).          (* a [Blob] *)

(** [new Uint8Array(data)] copies the bytes. *)
Definition Uint8Array (bytes : list Byte.byte) : list Byte.byte := bytes.

Definition onMessage (data : MessageData) : M (EventQueue.t (list Byte.byte)) unit :=
  match data with
  | BufferData bytes => EventQueue.push (Uint8Array bytes)
  | ArrayBufferData bytes => EventQueue.push (Uint8Array bytes)
  | _ => mret tt
  end.

(** The binary encodings the handler recognises, with their bytes. *)
Definition binary_payload (data : MessageData) : option (list Byte.byte) :=
  match data with
  | BufferData bytes | ArrayBufferData bytes => Some bytes
  | TextData _ | BlobData _ => None
  end.

End Ingress.

(** ** Numbers

    A JavaScript number is an IEEE 754 double: a primitive [float], whose
    [+] and [<?] are the operators of the language. Its rendering in a
    template literal is [Number::toString]: the shortest decimal that reads
    back as the number, the nearest to it when there are several. *)

Module JsNumber.

(** [n > 1] *)
Definition gt_one (n : float) : bool := (1 <? n)%float.

Definition zeros (n : nat) : string := string_of_list_ascii (replicate n "0"%char).

Definition take_string (n : nat) (s : string) : string := substring 0 n s.
Definition drop_string (n : nat) (s : string) : string :=
  substring n (String.length s - n) s.

(** A fraction [(a, b)] stands for [a / b], with [b] positive. *)
Definition lt_frac (x y : Z * Z) : bool := x.1 * y.2 <? y.1 * x.2.
Definition le_frac (x y : Z * Z) : bool := x.1 * y.2 <=? y.1 * x.2.

(** [x * 2^e] and [s * 10^p] as fractions. *)
Definition scale2 (x e : Z) : Z * Z :=
  if 0 <=? e then (x * 2 ^ e, 1) else (x, 2 ^ (- e)).
Definition scale10 (s p : Z) : Z * Z :=
  if 0 <=? p then (s * 10 ^ p, 1) else (s, 10 ^ (- p)).

(** Whether the decimal [d] reads back as the double [m * 2^e]: it lies
    between the midpoints to the two neighbouring doubles, the midpoints
    included when [m] is even (ties go to the even significand). Below a
    power of two the lower neighbour is half as far. *)
Definition reads_back (m e : Z) (d : Z * Z) : bool :=
  let below := if (m =? 2 ^ 52) && (-1074 <? e) then 4 * m - 1 else 4 * m - 2 in
  let lo := scale2 below (e - 2) in
  let hi := scale2 (4 * m + 2) (e - 2) in
  if Z.even m then le_frac lo d && le_frac d hi
  else lt_frac lo d && lt_frac d hi.

(** The distance from [v] to [d]. *)
Definition distance (v d : Z * Z) : Z * Z :=
  (Z.abs (d.1 * v.2 - v.1 * d.2), d.2 * v.2).

(** The decimals [s * 10^p] with [k] digits that read back as [m * 2^e]: for
    each exponent that gives [k] digits, the two multiples of [10^p] around
    the value. [n0] is the number of digits of the integer part of the value
    (zero or less below one). *)
Definition candidates (m e n0 k : Z) : list (Z * Z) :=
  let v := scale2 m e in
  p ← [n0 - k; n0 - k + 1];
  let q := if 0 <=? p then (v.1, v.2 * 10 ^ p) else (v.1 * 10 ^ (- p), v.2) in
  s ← [q.1 / q.2; q.1 / q.2 + 1];
  if (10 ^ (k - 1) <=? s) && (s <? 10 ^ k) && reads_back m e (scale10 s p)
  then [(s, p)] else [].

(** Of two candidates the one nearer to [v]; the even one when they are as
    near. *)
Definition nearer (v : Z * Z) (c1 c2 : Z * Z) : Z * Z :=
  let d1 := distance v (scale10 c1.1 c1.2) in
  let d2 := distance v (scale10 c2.1 c2.2) in
  if lt_frac d1 d2 then c1
  else if lt_frac d2 d1 then c2
  else if Z.even c1.1 then c1 else c2.

(** The digits [s], the position [n] of the decimal point and the number
    [k] of digits, [k] as small as possible: seventeen digits identify every
    double, so that the fuel does not run out. *)
Fixpoint shortest (fuel : nat) (m e n0 k : Z) : Z * Z * Z :=
  match fuel with
  | O => (0, 0, 0)
  | S fuel' =>
      match candidates m e n0 k with
      | c :: cs =>
          let c := foldl (nearer (scale2 m e)) c cs in
          (c.1, c.2 + k, k)
      | [] => shortest fuel' m e n0 (k + 1)
      end
  end.

Fixpoint leading_zeros (fuel : nat) (v : Z * Z) (j : Z) : Z :=
  match fuel with
  | O => j
  | S fuel' =>
      if v.2 <=? v.1 * 10 ^ (j + 1) then j else leading_zeros fuel' v (j + 1)
  end.

(** The least [n] with [m * 2^e < 10^n]. *)
Definition magnitude (m e : Z) : Z :=
  let v := scale2 m e in
  if v.2 <=? v.1 then Z.of_nat (String.length (pretty (v.1 / v.2)))
  else - leading_zeros 400 v 0.

(** The digits laid out: plain up to 21 digits before the point and 6
    zeros after it, with an exponent beyond. *)
Definition render (s n k : Z) : string :=
  let digits := pretty s in
  if (k <=? n) && (n <=? 21) then digits +:+ zeros (Z.to_nat (n - k))
  else if (0 <? n) && (n <=? 21)
  then take_string (Z.to_nat n) digits +:+ "." +:+ drop_string (Z.to_nat n) digits
  else if (-6 <? n) && (n <=? 0) then "0." +:+ zeros (Z.to_nat (- n)) +:+ digits
  else
    let exponent := (if 0 <=? n - 1 then "+" else "-") +:+ pretty (Z.abs (n - 1)) in
    if k =? 1 then digits +:+ "e" +:+ exponent
    else take_string 1 digits +:+ "." +:+ drop_string 1 digits +:+ "e" +:+ exponent.

(** [Number::toString] in radix 10. *)
Definition toString (x : float) : string :=
  match Prim2SF x with
  | S754_nan => "NaN"
  | S754_zero _ => "0"
  | S754_infinity sign => if sign then "-Infinity" else "Infinity"
  | S754_finite sign m e =>
      let '(s, n, k) := shortest 17 (Z.pos m) e (magnitude (Z.pos m) e) 1 in
      (if sign then "-" else EmptyString) +:+ render s n k
  end.

End JsNumber.

(** ** The order skills: [order.ts] *)

Module Order.

(** A line of an order; the quantity is a JavaScript number, whatever
    number the schema [z.number()] lets through. *)
Record OrderLine : Type := mkLine {
  item : string;
  quantity : float;
  size : option string;
}.

(** [orderState]: customer id to the [items] array of the order. *)
Abbreviation OrderState := (gmap string (list OrderLine)).

(** [Array.prototype.findIndex]: the first index whose element satisfies
    the predicate, [-1] when there is none. *)
Fixpoint findIndex_from {A} (p : A → bool) (l : list A) (k : Z) : Z :=
  match l with
  | [] => -1
  | x :: l' => if p x then k else findIndex_from p l' (k + 1)
  end.

Definition findIndex {A} (p : A → bool) (l : list A) : Z := findIndex_from p l 0.

(** The size followed by a space when [size] is truthy, nothing otherwise. *)
Definition size_prefix (size : option string) : string :=
  match size with
  | Some s => if truthy s then s +:+ " " else EmptyString
  | None => EmptyString
  end.

(** The plural mark: an s when [n > 1]. *)
Definition plural (n : float) : string :=
  if JsNumber.gt_one n then "s" else EmptyString.

(** [line.quantity += q] *)
Definition add_quantity (q : float) (i : OrderLine) : OrderLine :=
  mkLine (item i) (quantity i + q)%float (size i).

(** The arguments are those that the tool's schema hands to the function
    (a missing [quantity] already replaced by 1); [customerId] defaults in
    the function itself. *)
Definition addToOrder (item_ : string) (quantity_ : float) (size_ : option string)
    (customerId : option string) (orderState : OrderState)
    : string * OrderState :=
  let customerId := default "default" customerId in
  let orderState :=
    match orderState !! customerId with
    | None => <[customerId := []]> orderState
    | Some _ => orderState
    end in
  let items := default [] (orderState !! customerId) in
  let existingItemIndex :=
    findIndex (λ i, bool_decide (toLowerCase (item i) = toLowerCase item_)
                    && bool_decide (size i = size_)) items in
  if 0 <=? existingItemIndex then
    let items' := alter (add_quantity quantity_) (Z.to_nat existingItemIndex) items in
    let total := default 0%float (quantity <$> items' !! Z.to_nat existingItemIndex) in
    ("Updated your order: now " +:+ JsNumber.toString total +:+ " " +:+ size_prefix size_
       +:+ item_ +:+ plural total +:+ " in total.",
     <[customerId := items']> orderState)
  else
    ("Added " +:+ JsNumber.toString quantity_ +:+ " " +:+ size_prefix size_
       +:+ item_ +:+ plural quantity_ +:+ " to your order.",
     <[customerId := items ++ [mkLine item_ quantity_ size_]]> orderState).

Definition removeFromOrder (item_ : string) (customerId : option string)
    (orderState : OrderState) : string * OrderState :=
  let customerId := default "default" customerId in
  match orderState !! customerId with
  | None => ("Your order is already empty.", orderState)
  | Some [] => ("Your order is already empty.", orderState)
  | Some items =>
      let itemIndex :=
        findIndex (λ i, bool_decide (toLowerCase (item i) = toLowerCase item_)) items in
      if 0 <=? itemIndex then
        match items !! Z.to_nat itemIndex with
        | Some removedItem =>
            ("Removed " +:+ JsNumber.toString (quantity removedItem) +:+ " "
               +:+ size_prefix (size removedItem) +:+ item removedItem
               +:+ plural (quantity removedItem) +:+ " from your order.",
             <[customerId := delete (Z.to_nat itemIndex) items]> orderState)
        | None => (EmptyString, orderState)   (* not reached: the index is in range *)
        end
      else
        ("I couldn't find " +:+ String "034" item_ +:+ String "034"
           " in your order. Would you like me to tell you what's currently in your order?",
         orderState)
  end.

(** The description of a line in an order summary: quantity, size when
    truthy, item, and the plural mark. *)
Definition describe (i : OrderLine) : string :=
  JsNumber.toString (quantity i) +:+ " " +:+ size_prefix (size i) +:+ item i
    +:+ plural (quantity i).

Definition cancelOrder (reason : option string) (customerId : option string)
    (orderState : OrderState) : string * OrderState :=
  let customerId := default "default" customerId in
  match orderState !! customerId with
  | None => ("There's no active order to cancel.", orderState)
  | Some [] => ("There's no active order to cancel.", orderState)
  | Some _ =>
      let orderState := delete customerId orderState in
      match reason with
      | Some r =>
          if truthy r then
            ("No problem, I've cancelled your order. Reason noted: " +:+ r
               +:+ ". Is there anything else I can help you with?",
             orderState)
          else
            ("Your order has been cancelled. No worries! Let me know if you'd like to start a new order.",
             orderState)
      | None =>
          ("Your order has been cancelled. No worries! Let me know if you'd like to start a new order.",
           orderState)
      end
  end.

Definition getOrderStatus (customerId : option string) (orderState : OrderState)
    : string * OrderState :=
  let customerId := default "default" customerId in
  match orderState !! customerId with
  | None =>
      ("You don't have any items in your order yet. What would you like to order?",
       orderState)
  | Some [] =>
      ("You don't have any items in your order yet. What would you like to order?",
       orderState)
  | Some items =>
      let orderSummary := String.concat ", " (describe <$> items) in
      ("Here's what you have so far: " +:+ orderSummary
         +:+ ". Would you like to add anything else, or are you ready to confirm?",
       orderState)
  end.

(** A call of one of the order tools, and a sequence of calls on the shared
    [orderState]. *)
Inductive Request : Type :=
| AddToOrder (item : string) (quantity : float) (size : option string)
    (customerId : option string)
| RemoveFromOrder (item : string) (customerId : option string)
| CancelOrder (reason : option string) (customerId : option string)
| GetOrderStatus (customerId : option string).

Definition handle (r : Request) (orderState : OrderState) : string * OrderState :=
  match r with
  | AddToOrder i q s c => addToOrder i q s c orderState
  | RemoveFromOrder i c => removeFromOrder i c orderState
  | CancelOrder reason c => cancelOrder reason c orderState
  | GetOrderStatus c => getOrderStatus c orderState
  end.

Fixpoint handle_all (rs : list Request) (orderState : OrderState) : OrderState :=
  match rs with
  | [] => orderState
  | r :: rs' => handle_all rs' (handle r orderState).2
  end.

End Order.

(** ** The producer task of the Transcription Stage: [sttStream] *)

Module Transcription.

(** Calls made to the recognizer ([AssemblyAISTT]). *)
Inductive SttCall : Type :=
| SendAudio (audioChunk : list Byte.byte)
| Close.

(** [await stt.sendAudio(audioChunk)]: the call is recorded; whether it
    throws is the recognizer's choice, given by [rejects] from the calls made
    before and the chunk. *)
Definition stt_sendAudio (rejects : list SttCall → list Byte.byte → option Error)
    (audioChunk : list Byte.byte) : M (list SttCall) unit :=
  λ calls,
    (match rejects calls audioChunk with
     | Some e => Threw e
     | None => Ok tt
     end,
     calls ++ [SendAudio audioChunk]).

Definition stt_close : M (list SttCall) unit :=
  λ calls, (Ok tt, calls ++ [Close]).

(** The producer: forward each chunk, and close in [finally]. *)
Definition producer (rejects : list SttCall → list Byte.byte → option Error)
    (audioStream : list (list Byte.byte)) : M (list SttCall) unit :=
  try_finally (for_of audioStream (stt_sendAudio rejects)) stt_close.

End Transcription.

(** ** A session: the stages over inputs that may not end, and the teardown

    The stages are async generators chained by [for await]. A stream is
    given by the items it delivers over the whole session and by how it ends
    after them; a task is followed up to the point where nothing more can
    happen: it has returned, it has thrown, or it waits at an [await] that
    is never answered. What a generator does when its consumer abandons it
    (the [return] that a [for await] left by an exception sends upstream) is
    not followed. *)

Module Session.

Inductive Ending : Type :=
| Open                  (* no end: the consumer waits for ever *)
| Ended                 (* the iteration is done *)
| Broken (e : Error).   (* the generator behind the stream has thrown *)

Record Stream (A : Type) : Type := mkStream {
  delivered : list A;
  ending : Ending;
}.
Arguments mkStream {A} delivered ending.
Arguments delivered {A} _.
Arguments ending {A} _.

(** Modelled from the spec: the single consumer's view of the Event Queue
    ([writableIterator] of [utils.ts], which is not among the sources). The
    consumer retrieves the items in arrival order, and observes the end of
    the stream once the queue has been cancelled and the items are drained;
    it never observes it on a queue that is not cancelled. *)
Definition of_queue {A} (q : EventQueue.t A) : Stream A :=
  mkStream (EventQueue.items q) (if EventQueue.cancelled q then Ended else Open).

Inductive Outcome : Type :=
| Returned
| Failed (e : Error)
| Waiting.

Definition Task (S : Type) : Type := S → Outcome * S.

(** What [for await] meets after the last item. *)
Definition at_end (e : Ending) : Outcome :=
  match e with
  | Open => Waiting
  | Ended => Returned
  | Broken e => Failed e
  end.

(** A loop over the items of a stream, then the wait for its end. *)
Definition until_end {S A B} (stream : Stream A) (loop : list A → M S B) : Task S :=
  λ s, match loop (delivered stream) s with
       | (Ok _, s') => (at_end (ending stream), s')
       | (Threw e, s') => (Failed e, s')
       end.

(** [for await (const x of stream) { body x }] *)
Definition for_await {S A} (stream : Stream A) (body : A → M S unit) : Task S :=
  until_end stream (λ l, for_of l body).

(** [try { task } finally { cleanup }]: the cleanup runs when the task
    returns or throws; it is not reached while the task waits. *)
Definition try_finally_task {S} (task : Task S) (cleanup : M S unit) : Task S :=
  λ s, match task s with
       | (Waiting, s') => (Waiting, s')
       | (o, s') =>
           match cleanup s' with
           | (Ok _, s'') => (o, s'')
           | (Threw e, s'') => (Failed e, s'')
           end
       end.

(** What a generator offers its consumer: the events it has yielded, and
    its end when it has returned or thrown. *)
Definition generated {A} (o : Outcome) (yielded : list A) : Stream A :=
  mkStream yielded
    match o with
    | Returned => Ended
    | Failed e => Broken e
    | Waiting => Open
    end.

(** [onClose]: [inputStream.cancel()]; the handler then awaits
    [flushPromise]. The input channel of a session that received [frames]
    and was closed. *)
Definition inputStream (frames : list Ingress.MessageData)
    : EventQueue.t (list Byte.byte) :=
  snd ((for_of frames Ingress.onMessage ;; EventQueue.cancel) EventQueue.empty).

(** The two tasks of [sttStream]: the producer over the input channel, and
    the consumer, which pushes the recognizer's events [sttEvents] into the
    passthrough queue. *)
Definition stt_producer (rejects : list Transcription.SttCall → list Byte.byte → option Error)
    (audioStream : Stream (list Byte.byte)) : Task (list Transcription.SttCall) :=
  try_finally_task (for_await audioStream (Transcription.stt_sendAudio rejects))
    Transcription.stt_close.

Definition stt_consumer (sttEvents : Stream VoiceAgentEvent)
    : Task (EventQueue.t VoiceAgentEvent) :=
  for_await sttEvents EventQueue.push.

(** [yield* passthrough]: the stage yields what its passthrough queue
    delivers, and ends when the queue does. *)
Definition sttStream (sttEvents : Stream VoiceAgentEvent) : Stream VoiceAgentEvent :=
  of_queue (snd (stt_consumer sttEvents EventQueue.empty)).

(** [agentStream] over a stream. *)
Definition agentStream (env : Env) (eventStream : Stream VoiceAgentEvent)
    : Task Agent.World :=
  λ w, for_await eventStream (Agent.on_event env) (snd (Agent.uuidv4 env w)).

Definition agentEventStream (env : Env) (eventStream : Stream VoiceAgentEvent)
    : Stream VoiceAgentEvent :=
  let r := agentStream env eventStream Agent.init in
  generated (fst r) (Agent.yielded (snd r)).

(** The two tasks of [ttsStream], and what the stage yields: the arrivals
    in its passthrough queue under a schedule of the two tasks, up to the end
    of the queue. *)
Definition tts_producer (eventStream : Stream VoiceAgentEvent) : Task Synthesis.World :=
  try_finally_task
    (until_end eventStream (λ l, Synthesis.producer_loop l []))
    Synthesis.tts_close.

Definition tts_consumer (audio : Stream VoiceAgentEvent) : Task Synthesis.World :=
  for_await audio Synthesis.passthrough_push.

Definition ttsStream (schedule : list bool) (eventStream audio : Stream VoiceAgentEvent)
    : Stream VoiceAgentEvent :=
  let w := snd (tts_producer eventStream Synthesis.init) in
  let w' := snd (tts_consumer audio w) in
  mkStream
    (EventQueue.arrivals schedule (EventQueue.items (Synthesis.passthrough w))
       (delivered audio))
    (ending (of_queue (Synthesis.passthrough w'))).

(** The pipeline of a connection, as [upgradeWebSocket] chains it, for a
    session that received [frames] and was closed: the collaborators are the
    recognizer ([rejects], [sttEvents]), the agent with the clock and the
    identifiers ([env]) and the synthesizer ([audio]). *)
Record Collaborators : Type := mkCollaborators {
  rejects : list Transcription.SttCall → list Byte.byte → option Error;
  sttEvents : Stream VoiceAgentEvent;
  env : Env;
  audio : Stream VoiceAgentEvent;
  schedule : list bool;
}.

Definition stt_calls (c : Collaborators) (frames : list Ingress.MessageData)
    : list Transcription.SttCall :=
  snd (stt_producer (rejects c) (of_queue (inputStream frames)) []).

Definition transcriptEventStream (c : Collaborators) : Stream VoiceAgentEvent :=
  sttStream (sttEvents c).

Definition agent_outcome (c : Collaborators) : Outcome :=
  fst (agentStream (env c) (transcriptEventStream c) Agent.init).

Definition tts_run (c : Collaborators) : Outcome * Synthesis.World :=
  tts_producer (agentEventStream (env c) (transcriptEventStream c)) Synthesis.init.

Definition outputEventStream (c : Collaborators) : Stream VoiceAgentEvent :=
  ttsStream (schedule c) (agentEventStream (env c) (transcriptEventStream c)) (audio c).

(** The number of [close] calls among the calls to a vendor. *)
Definition stt_closes (calls : list Transcription.SttCall) : nat :=
  length (List.filter (λ c, match c with Transcription.Close => true | _ => false end)
            calls).

Definition tts_closes (calls : list Synthesis.TtsCall) : nat :=
  length (List.filter (λ c, match c with Synthesis.Close => true | _ => false end)
            calls).

End Session.

(** ** Routing by keywords: [classifyTask] of the subagents module *)

Module Subagents.

Inductive AgentType : Type :=
| ORDER
| CUSTOMER_SERVICE
| GENERAL.

Definition orderKeywords : list string :=
  ["order"; "buy"; "purchase"; "add"; "remove"; "cancel"; "confirm";
   "i want"; "i'll have"; "i'd like"; "get me"; "sandwich"].

Definition serviceKeywords : list string :=
  ["what"; "which"; "how much"; "price"; "cost"; "available"; "have";
   "menu"; "options"; "complaint"; "problem"; "issue"].

(** [keywords.filter((kw) => lowerTask.includes(kw)).length] *)
Definition score (keywords : list string) (lowerTask : string) : nat :=
  length (List.filter (λ kw, includes lowerTask kw) keywords).

Definition classifyTask (task : string) : AgentType :=
  let lowerTask := toLowerCase task in
  let orderScore := score orderKeywords lowerTask in
  let serviceScore := score serviceKeywords lowerTask in
  if (serviceScore <? orderScore)%nat then ORDER
  else if (orderScore <? serviceScore)%nat then CUSTOMER_SERVICE
  else GENERAL.

End Subagents.

(** ** Notions used to state the properties *)

Module Props.

(** An event that neither ends a turn nor is a final transcript. *)
Definition quiet (e : VoiceAgentEvent) : Prop :=
  is_agent_end e = false ∧ is_stt_output e = false.

(** A computation of the Agent Stage that returns normally from every
    state, only appends events satisfying [Q] to what was yielded, and does
    not call the agent. *)
Definition emits (Q : VoiceAgentEvent → Prop) (m : M Agent.World unit) : Prop :=
  ∀ w, ∃ new w', m w = (Ok tt, w') ∧ Agent.yielded w' = Agent.yielded w ++ new
    ∧ Agent.agent_calls w' = Agent.agent_calls w ∧ Forall Q new.

(** The events of the Transcription Stage: partial and final transcripts. *)
Definition is_transcript (e : VoiceAgentEvent) : Prop :=
  match e with
  | stt_chunk _ _ | stt_output _ _ => True
  | _ => False
  end.

(** The number of final transcripts among events. *)
Definition final_transcripts (l : list VoiceAgentEvent) : nat :=
  length (List.filter is_stt_output l).

(** The stage's output continues with the re-emission of the next input
    event, when there is one. *)
Definition continues_with (rest tail : list VoiceAgentEvent) : Prop :=
  match rest with
  | [] => tail = []
  | e :: _ => ∃ tail', tail = e :: tail'
  end.

(** The events that the Agent Stage receives from its input: it takes them
    one by one, and takes no more once the handling of an event has thrown. *)
Fixpoint received_from (env : Env) (l : list VoiceAgentEvent) (w : Agent.World)
    : list VoiceAgentEvent :=
  match l with
  | [] => []
  | e :: rest =>
      e :: match Agent.on_event env e w with
           | (Ok _, w') => received_from env rest w'
           | (Threw _, _) => []
           end
  end.

Definition received (env : Env) (eventStream : list VoiceAgentEvent)
    : list VoiceAgentEvent :=
  received_from env eventStream (snd (Agent.uuidv4 env Agent.init)).

(** The stage has returned normally from the input [l]: it is ready for the
    events that follow. *)
Definition served (env : Env) (l : list VoiceAgentEvent) : Prop :=
  fst (Agent.agentStream env l Agent.init) = Ok tt.

(** A run that ends normally, or fails with an error that [JSON.stringify]
    renders; and an agent all of whose runs are such. *)
Definition failure_rendered (run : AgentRun) : Prop :=
  ∀ e, run_error run = Some e → is_Some (error_json e).

Definition errors_rendered (env : Env) : Prop :=
  ∀ calls call, failure_rendered (agent_of env calls call).

(** The calls of the agent collaborator made while the stage consumes a
    finite input. *)
Definition agent_calls_on (env : Env) (eventStream : list VoiceAgentEvent)
    : list AgentCall :=
  Agent.agent_calls (snd (Agent.agentStream env eventStream Agent.init)).

(** The events of one turn: what [on_stt_output] yields from state [w]. *)
Definition turn_events (env : Env) (transcript : string) (w : Agent.World)
    : list VoiceAgentEvent :=
  drop (length (Agent.yielded w))
       (Agent.yielded (snd (Agent.on_stt_output env transcript w))).

(** The call that a turn on [transcript] makes. *)
Definition turn_call (transcript : string) : AgentCall :=
  mkAgentCall [transcript] "messages" None.

(** Tool-call and tool-result identifiers, in order of appearance. *)
Inductive IdItem : Type :=
| CallId (id : string)
| ResultId (id : string).

#[global] Instance IdItem_eq_dec : EqDecision IdItem.
Proof. solve_decision. Defined.

Definition event_id (e : VoiceAgentEvent) : option IdItem :=
  match e with
  | tool_call id _ _ _ => Some (CallId id)
  | tool_result id _ _ _ => Some (ResultId id)
  | _ => None
  end.

Definition event_ids (l : list VoiceAgentEvent) : list IdItem := omap event_id l.

(** The identifiers the collaborator puts on a message; an omitted one is
    read as the empty string. *)
Definition message_ids (m : Message) : list IdItem :=
  match m with
  | AIMessage _ (Some calls) =>
      (λ c, CallId (default EmptyString (tc_id c))) <$> calls
  | AIMessage _ None => []
  | ToolMessage tool_call_id _ _ => [ResultId (default EmptyString tool_call_id)]
  | OtherMessage => []
  end.

(** Every result identifier matches exactly one call identifier before it. *)
Definition paired (ids : list IdItem) : Prop :=
  ∀ before id after, ids = before ++ ResultId id :: after →
    count_occ IdItem_eq_dec before (CallId id) = 1%nat.

(** A computation of the Agent Stage that returns normally from every
    state and appends events whose identifiers are [ids]. *)
Definition emits_ids (ids : list IdItem) (m : M Agent.World unit) : Prop :=
  ∀ w, ∃ new w', m w = (Ok tt, w') ∧ Agent.yielded w' = Agent.yielded w ++ new
    ∧ event_ids new = ids.

(** The collaborator supplies an id on every tool invocation intent. *)
Definition intent_ids_supplied (m : Message) : Prop :=
  match m with
  | AIMessage _ (Some calls) => Forall (λ c, is_Some (tc_id c)) calls
  | _ => True
  end.

(** The synthesizer's input for a segment of events, in the spec's words:
    the ordered concatenation of the texts of its response chunks. *)
Definition chunk_texts (l : list VoiceAgentEvent) : list string :=
  omap (λ e, match e with agent_chunk text _ => Some text | _ => None end) l.

Definition concatenation (l : list string) : string :=
  foldr String.append EmptyString l.

(** The number of turn ends among events. *)
Definition turn_ends (l : list VoiceAgentEvent) : nat :=
  length (List.filter is_agent_end l).

(** An input prefix after which a new turn starts: nothing, or events up to
    and including a turn end. *)
Definition turn_boundary (l : list VoiceAgentEvent) : Prop :=
  l = [] ∨ ∃ l' ts, l = l' ++ [agent_end ts].

(** Equality of item names up to case, as [order.ts] compares them. *)
Definition eq_ignore_case (a b : string) : Prop := toLowerCase a = toLowerCase b.

(** The line that [addToOrder] merges into. *)
Definition same_line (item : string) (size : option string) (i : Order.OrderLine)
    : Prop :=
  eq_ignore_case (Order.item i) item ∧ Order.size i = size.

(** An order in which no two lines have the same item, up to case, and the
    same size: the orders that [addToOrder] builds. *)
Definition line_key (i : Order.OrderLine) : string * option string :=
  (toLowerCase (Order.item i), Order.size i).

Definition distinct_lines (l : list Order.OrderLine) : Prop :=
  NoDup (line_key <$> l).

Definition all_distinct (orderState : gmap string (list Order.OrderLine)) : Prop :=
  ∀ c l, orderState !! c = Some l → distinct_lines l.

(** The greetings of [greetingPattern], and the words it accepts: a greeting,
    possibly followed by a full stop, up to the case of letters. *)
Definition greetings : list string :=
  ["hello"; "hi"; "hey"; "good morning"; "good afternoon"; "good evening"].

Definition is_greeting (s : string) : Prop :=
  ∃ g dot, g ∈ greetings ∧ (dot = EmptyString ∨ dot = ".") ∧
    RegExp.canonicalize <$> list_ascii_of_string s
    = RegExp.canonicalize <$> (list_ascii_of_string g ++ list_ascii_of_string dot).

(** The customer's lines, none when the customer has no order. *)
Definition items_of (customerId : option string)
    (orderState : gmap string (list Order.OrderLine)) : list Order.OrderLine :=
  default [] (orderState !! default "default" customerId).

(** A string of white space only. *)
Definition all_white_space (s : string) : Prop :=
  Forall (λ c, isWhiteSpace c = true) (list_ascii_of_string s).

(** The timestamp of an event. *)
Definition event_ts (e : VoiceAgentEvent) : Z :=
  match e with
  | stt_chunk _ ts | stt_output _ ts | agent_chunk _ ts | tool_call _ _ _ ts
  | tool_result _ _ _ ts | agent_end ts | tts_chunk _ ts => ts
  end.

(** The final transcripts that are not greetings, in order. *)
Definition agent_transcripts (l : list VoiceAgentEvent) : list string :=
  omap (λ e, match e with
             | stt_output t _ =>
                 if Agent.greetingPattern_test (trim t) then None else Some t
             | _ => None
             end) l.

(** The texts of the assistant messages of a run, and the response chunks
    that the stage makes of one message. *)
Definition ai_texts (msgs : list Message) : list string :=
  omap (λ m, match m with AIMessage text _ => Some text | _ => None end) msgs.

Definition message_chunks (m : Message) : list string :=
  match m with
  | AIMessage text _ => if truthy text then [text] else []
  | _ => []
  end.

(** A computation of the Agent Stage that returns normally from every
    state without calling the agent; the events it appends are no turn end
    and no final transcript, hold the response texts [texts], and carry the
    successive readings of the clock. *)
Definition emits_with (env : Env) (texts : list string) (m : M Agent.World unit)
    : Prop :=
  ∀ w, ∃ new w',
    m w = (Ok tt, w') ∧ Agent.yielded w' = Agent.yielded w ++ new
    ∧ Agent.agent_calls w' = Agent.agent_calls w
    ∧ Forall quiet new ∧ chunk_texts new = texts
    ∧ Agent.clock_reads w' = (Agent.clock_reads w + length new)%nat
    ∧ event_ts <$> new = now_of env <$> seq (Agent.clock_reads w) (length new).

(** What the session says, turn by turn, on an input of transcripts: the
    fixed greeting on a greeting, otherwise the concatenation of the texts of
    the assistant messages of the agent's run; [calls] are the calls the
    agent has received before. *)
Fixpoint spoken (env : Env) (calls : list AgentCall) (l : list VoiceAgentEvent)
    : list string :=
  match l with
  | [] => []
  | stt_output t _ :: rest =>
      if Agent.greetingPattern_test (trim t)
      then Agent.GREETING :: spoken env calls rest
      else concatenation (ai_texts (run_messages (agent_of env calls (turn_call t))))
             :: spoken env (calls ++ [turn_call t]) rest
  | _ :: rest => spoken env calls rest
  end.

End Props.

(** Sample environments, used to run the stages on concrete inputs. *)
Module Samples.

Definition uuid_sample (n : nat) : string := "uuid-" +:+ pretty n.
Definition now_sample (n : nat) : Z := 1700000000000 + Z.of_nat n.

(** An agent that looks up the menu, with ids on the intent and the result. *)
Definition menu_run : AgentRun :=
  mkAgentRun
    [AIMessage EmptyString (Some [mkToolCall (Some "call_1") "get_menu_info" "{}"]);
     ToolMessage (Some "call_1") (Some "get_menu_info") (TextContent "Our specialty sandwiches");
     AIMessage "We have the Classic BLT." None]
    None.

(** The same run, with the call id omitted on the tool result message. *)
Definition menu_run_no_result_id : AgentRun :=
  mkAgentRun
    [AIMessage EmptyString (Some [mkToolCall (Some "call_1") "get_menu_info" "{}"]);
     ToolMessage None (Some "get_menu_info") (TextContent "Our specialty sandwiches");
     AIMessage "We have the Classic BLT." None]
    None.

(** A run whose intent has no id, and whose tool result has none either. *)
Definition menu_run_no_ids : AgentRun :=
  mkAgentRun
    [AIMessage EmptyString (Some [mkToolCall None "get_menu_info" "{}"]);
     ToolMessage None (Some "get_menu_info") (TextContent "Our specialty sandwiches")]
    None.

(** A run that fails after a first fragment, with an error that
    [JSON.stringify] renders. *)
Definition failing_run : AgentRun :=
  mkAgentRun [AIMessage "Let me" None] (Some (mkError "fetch failed" (Some "{}"))).

(** The same failure with an error object that holds a reference to itself
    (as the errors of HTTP clients that keep the request and its response):
    [JSON.stringify] throws on it. *)
Definition circular_run : AgentRun :=
  mkAgentRun [AIMessage "Let me" None] (Some (mkError "request failed" None)).

Definition env_menu : Env := mkEnv uuid_sample now_sample (λ _ _, menu_run).
Definition env_no_result_id : Env :=
  mkEnv uuid_sample now_sample (λ _ _, menu_run_no_result_id).
Definition env_no_ids : Env := mkEnv uuid_sample now_sample (λ _ _, menu_run_no_ids).
Definition env_failing : Env := mkEnv uuid_sample now_sample (λ _ _, failing_run).
Definition env_circular : Env := mkEnv uuid_sample now_sample (λ _ _, circular_run).

(** An input of the Synthesis Stage: a greeting turn, then a turn with a
    tool call between two response chunks, then the next partial transcript. *)
Definition first_turn : list VoiceAgentEvent :=
  [stt_output "hello" 1; agent_chunk "Hi!" 2; agent_end 3].
Definition second_turn : list VoiceAgentEvent :=
  [stt_output "what sandwiches do you have" 4; agent_chunk "We have " 5;
   tool_call "call_1" "get_menu_info" "{}" 6; agent_chunk "the Classic BLT." 7].
Definition afterwards : list VoiceAgentEvent := [stt_chunk "and" 9].

(** An order with two lines, for the customer of the default id. *)
Definition turkey : Order.OrderLine := Order.mkLine "Turkey Club" 1 (Some "large").
Definition blt : Order.OrderLine := Order.mkLine "BLT" 1 None.
Definition two_lines : gmap string (list Order.OrderLine) :=
  <["default" := [turkey; blt]]> ∅.

(** An order of 9007199254740992 sandwiches, two to the power 53. *)
Definition many_blt : gmap string (list Order.OrderLine) :=
  <["default" := [Order.mkLine "BLT" 9007199254740992 None]]> ∅.

(** A session that is closed after one audio frame: the recognizer reports
    a greeting and ends its events, the synthesizer answers with one chunk of
    audio and ends its events. *)
Definition one_frame : list Ingress.MessageData :=
  [Ingress.BufferData [Byte.x01; Byte.x02]].

Definition closed_session : Session.Collaborators :=
  Session.mkCollaborators (λ _ _, None)
    (Session.mkStream [stt_chunk "hel" 1; stt_output "hello" 2] Session.Ended)
    env_menu
    (Session.mkStream [tts_chunk "UklGRg==" 3] Session.Ended)
    [true; true; true; true; false].

(** Inputs of the Agent Stage. *)
Definition partials : list VoiceAgentEvent := [stt_chunk "hel" 1; stt_chunk "hello" 2].
Definition two_turns : list VoiceAgentEvent :=
  [stt_chunk "hel" 1; stt_output "Hello." 2;
   stt_chunk "what sand" 3; stt_output "what sandwiches do you have" 4].

End Samples.

(** * Properties *)

(** ** Loops of the monad *)

Lemma for_of_app {S A} (l1 l2 : list A) (body : A → M S unit) (s : S) :
  for_of (l1 ++ l2) body s =
  match for_of l1 body s with
  | (Ok _, s') => for_of l2 body s'
  | (Threw e, s') => (Threw e, s')
  end.
Proof.
  revert s. induction l1 as [|x l1 IH]; intros s; simpl.
  - reflexivity.
  - unfold bind. destruct (body x s) as [[[]|e] s1]; [apply IH | reflexivity].
Qed.

(** ** Counting turn ends *)

Lemma turn_ends_app l1 l2 :
  Props.turn_ends (l1 ++ l2) = (Props.turn_ends l1 + Props.turn_ends l2)%nat.
Proof. unfold Props.turn_ends. by rewrite List.filter_app, length_app. Qed.

Lemma turn_ends_segment seg :
  Forall (λ e, is_agent_end e = false) seg → Props.turn_ends seg = 0%nat.
Proof.
  unfold Props.turn_ends. induction 1 as [|e seg He _ IH]; [done|].
  simpl. by rewrite He.
Qed.

(** ** The greeting pattern *)

Section GreetingPattern.
Import RegExp Props.

Lemma run_word_iff w pos s k :
  run true (word w) pos s k = true ↔
  ∃ s1 s2, s = s1 ++ s2 ∧ canonicalize <$> w = canonicalize <$> s1
           ∧ k (pos + length w)%nat s2 = true.
Proof.
  revert pos s. induction w as [|p w IH]; intros pos s; csimpl.
  - rewrite Nat.add_0_r. split.
    + intros H. by exists [], s.
    + intros (s1 & s2 & -> & Hs1 & H). symmetry in Hs1.
      apply fmap_nil_inv in Hs1 as ->. exact H.
  - destruct s as [|c s].
    + split; [done|]. intros (s1 & s2 & Hs & Hs1 & _).
      symmetry in Hs. apply app_eq_nil in Hs as [-> ->]. done.
    + unfold char_matches. rewrite andb_true_iff, bool_decide_eq_true, IH.
      replace (pos + S (length w))%nat with (S pos + length w)%nat by lia.
      split.
      * intros (Hc & s1 & s2 & -> & Hs1 & H). exists (c :: s1), s2.
        csimpl. by rewrite Hc, Hs1.
      * intros (s1 & s2 & Hs & Hs1 & H). destruct s1 as [|c' s1]; [done|].
        csimpl in *. injection Hs as <- ->. injection Hs1 as Hc Hs1.
        split; [done|]. by exists s1, s2.
Qed.

Lemma run_seq ic r1 r2 pos s k :
  run ic (Seq r1 r2) pos s k = run ic r1 pos s (λ pos' s', run ic r2 pos' s' k).
Proof. reflexivity. Qed.

Lemma run_alt ic r1 r2 pos s k :
  run ic (Alt r1 r2) pos s k = run ic r1 pos s k || run ic r2 pos s k.
Proof. reflexivity. Qed.

(** What may follow the greeting: nothing, or a full stop, then the end. *)
Lemma run_tail_iff pos s :
  run true (Seq (Opt (Char "."%char)) AssertEnd) pos s (λ _ _, true) = true ↔
  ∃ dot, (dot = EmptyString ∨ dot = ".")
         ∧ canonicalize <$> s = canonicalize <$> list_ascii_of_string dot.
Proof.
  simpl. rewrite orb_true_iff. split.
  - intros [H|H].
    + destruct s as [|c [|c' s]]; try done.
      * exists ".". split; [by right|]. simpl in *.
        rewrite andb_true_r in H. unfold char_matches in H.
        apply bool_decide_eq_true in H. by rewrite <- H.
      * simpl in H. by rewrite andb_false_r in H.
    + destruct s; [|done]. exists EmptyString. split; [by left|done].
  - intros (dot & [->| ->] & H).
    + right. apply fmap_nil_inv in H as ->. done.
    + left. destruct s as [|c [|c' s]]; try done. simpl in *.
      injection H as H. unfold char_matches.
      rewrite andb_true_r. apply bool_decide_eq_true. by rewrite H.
Qed.

(** A pattern anchored at the start matches, if at all, from index 0. *)
Lemma test_anchored r s :
  test true (Seq AssertStart r) s =
  run true r 0 (list_ascii_of_string s) (λ _ _, true).
Proof.
  unfold test. set (l := list_ascii_of_string s).
  change (seq 0 (S (length l))) with (0%nat :: seq 1 (length l)).
  assert (∀ m n, existsb (λ i, run true (Seq AssertStart r) i (drop i l) (λ _ _, true))
                   (seq (S n) m) = false) as Hlater.
  { induction m as [|m IH]; intros n; [done|]. simpl. apply IH. }
  cbn [existsb]. rewrite Hlater, orb_false_r. reflexivity.
Qed.

(** The pattern accepts exactly the greetings, with an optional full stop,
    whatever the case of the letters. *)
Lemma greetingPattern_test_spec s :
  Agent.greetingPattern_test s = true ↔ is_greeting s.
Proof.
  unfold Agent.greetingPattern_test, Agent.greetingPattern, is_greeting.
  rewrite test_anchored. set (l := list_ascii_of_string s).
  rewrite run_seq, !run_alt. unfold lit.
  rewrite !orb_true_iff, !run_word_iff.
  setoid_rewrite run_tail_iff.
  split.
  - intros H.
    assert (∀ g, (∃ s1 s2, l = s1 ++ s2
                  ∧ canonicalize <$> list_ascii_of_string g = canonicalize <$> s1
                  ∧ ∃ dot, (dot = EmptyString ∨ dot = ".")
                           ∧ canonicalize <$> s2 = canonicalize <$> list_ascii_of_string dot) →
              g ∈ greetings →
              ∃ g dot, g ∈ greetings ∧ (dot = EmptyString ∨ dot = ".") ∧
                canonicalize <$> l
                = canonicalize <$> (list_ascii_of_string g ++ list_ascii_of_string dot))
      as Hg.
    { intros g (s1 & s2 & -> & H1 & dot & Hdot & H2) Hin. exists g, dot.
      split; [done|]. split; [done|]. by rewrite !fmap_app, H1, H2. }
    unfold greetings in Hg.
    destruct H as [H|[H|[H|[H|[H|H]]]]]; (eapply Hg; [exact H|repeat constructor]).
  - intros (g & dot & Hin & Hdot & H).
    rewrite fmap_app in H. apply fmap_app_inv in H as (s1 & s2 & H1 & H2 & Hl).
    assert (∃ s1 s2, l = s1 ++ s2
              ∧ canonicalize <$> list_ascii_of_string g = canonicalize <$> s1
              ∧ ∃ dot, (dot = EmptyString ∨ dot = ".")
                       ∧ canonicalize <$> s2 = canonicalize <$> list_ascii_of_string dot)
      as Hg by (exists s1, s2; eauto).
    clear - Hin Hg.
    repeat (apply elem_of_cons in Hin as [->|Hin]; [by eauto 10|]).
    by apply elem_of_nil in Hin.
Qed.

End GreetingPattern.

(** ** The Agent Stage *)

Section AgentStage.
Context (env : Env).
Import Agent Props.

Ltac run_agent :=
  unfold mbind, M_bind, mret, M_ret, bind, ret, Date_now, yield, uuidv4; simpl.

Lemma emits_ret Q : emits Q (mret tt).
Proof. intros w. exists [], w. rewrite app_nil_r. by repeat split. Qed.

Lemma emits_bind Q (m : M World unit) (k : unit → M World unit) :
  emits Q m → (∀ u, emits Q (k u)) → emits Q (m ≫= k).
Proof.
  intros Hm Hk w. destruct (Hm w) as (n1 & w1 & E1 & Y1 & A1 & Q1).
  destruct (Hk tt w1) as (n2 & w2 & E2 & Y2 & A2 & Q2).
  exists (n1 ++ n2), w2. unfold mbind, M_bind, bind. rewrite E1.
  repeat split.
  - exact E2.
  - by rewrite Y2, Y1, app_assoc.
  - congruence.
  - by apply Forall_app.
Qed.

Lemma emits_for_of {A} Q (l : list A) (body : A → M World unit) :
  (∀ x, emits Q (body x)) → emits Q (for_of l body).
Proof.
  intros Hb. induction l as [|x l IH]; simpl.
  - apply emits_ret.
  - apply (emits_bind Q (body x) (λ _, for_of l body)); auto.
Qed.

Lemma emits_now_yield Q (f : Z → VoiceAgentEvent) :
  (∀ ts, Q (f ts)) → emits Q (ts ← Date_now env; yield (f ts)).
Proof. intros Hf w. eexists [_], _. cbn. repeat split; eauto. Qed.

Lemma emits_emit_tool_call tc : emits quiet (emit_tool_call env tc).
Proof.
  intros w. unfold emit_tool_call. destruct (tc_id tc); cbn;
    eexists [_], _; repeat split; eauto; by repeat constructor.
Qed.

Lemma emits_on_message m : emits quiet (on_message env m).
Proof.
  destruct m as [text tcs| cid name content |]; simpl.
  - apply emits_bind.
    + destruct (truthy text); [|apply emits_ret].
      apply emits_now_yield. by intros.
    + intros _. destruct tcs; [|apply emits_ret].
      apply emits_for_of, emits_emit_tool_call.
  - apply emits_now_yield. by intros.
  - apply emits_ret.
Qed.

(** Reading the stream never calls the agent again and yields no turn end;
    it ends as the run does. *)
Lemma for_await_stream_quiet run w :
  ∃ new w',
    for_await_stream run (on_message env) w
      = (match run_error run with Some e => Threw e | None => Ok tt end, w')
    ∧ yielded w' = yielded w ++ new
    ∧ agent_calls w' = agent_calls w ∧ Forall quiet new.
Proof.
  destruct (emits_for_of quiet (run_messages run) _ emits_on_message w)
    as (new & w' & E & Y & A & Q).
  unfold for_await_stream, mbind, M_bind, bind. rewrite E.
  destruct (run_error run) as [e|]; by eexists new, w'.
Qed.

(** The fast path for greetings. *)
Lemma on_stt_output_greeting transcript w :
  greetingPattern_test (trim transcript) = true →
  on_stt_output env transcript w =
  (Ok tt, mkWorld (yielded w ++ [agent_chunk GREETING (now_of env (clock_reads w));
                                 agent_end (now_of env (S (clock_reads w)))])
                  (uuid_calls w) (S (S (clock_reads w))) (agent_calls w)).
Proof.
  intros H. unfold on_stt_output. rewrite H. run_agent. by rewrite <- app_assoc.
Qed.

(** A turn that goes to the agent: the call, the events of the messages,
    and then the turn end, unless the run fails with an error that
    [JSON.stringify] cannot render: then the handler throws. *)
Lemma on_stt_output_agent transcript w :
  greetingPattern_test (trim transcript) = false →
  let run := agent_of env (agent_calls w) (turn_call transcript) in
  ∃ new w2,
    Forall quiet new
    ∧ yielded w2 = yielded w ++ new
    ∧ agent_calls w2 = agent_calls w ++ [turn_call transcript]
    ∧ on_stt_output env transcript w =
        let ended :=
          mkWorld (yielded w2 ++ [agent_end (now_of env (clock_reads w2))])
            (uuid_calls w2) (S (clock_reads w2)) (agent_calls w2) in
        match run_error run with
        | Some e =>
            match error_json e with
            | Some _ => (Ok tt, ended)
            | None => (Threw TypeError, w2)
            end
        | None => (Ok tt, ended)
        end.
Proof.
  intros G run. unfold on_stt_output. rewrite G.
  unfold try_catch, mbind at 1, M_bind, bind, agent_stream.
  fold (turn_call transcript). fold run.
  set (w1 := mkWorld _ _ _ _).
  destruct (for_await_stream_quiet run w1) as (new & w2 & E & Y & A & Q).
  exists new, w2. split; [exact Q|]. split; [exact Y|]. split; [exact A|].
  unfold mbind at 1, M_bind, bind. rewrite E.
  destruct (run_error run) as [e|]; [|reflexivity].
  unfold mbind at 1, M_bind, bind, JSON_stringify.
  by destruct (error_json e).
Qed.

(** One turn: some events that are no turn end, and then one turn end when
    the computation returns; it throws only out of the handler. *)
Lemma on_stt_output_turn transcript w :
  ∃ new w',
    Forall quiet new
    ∧ agent_calls w' =
        (if greetingPattern_test (trim transcript) then agent_calls w
         else agent_calls w ++ [turn_call transcript])
    ∧ ((∃ ts_end, on_stt_output env transcript w = (Ok tt, w')
                  ∧ yielded w' = yielded w ++ new ++ [agent_end ts_end])
       ∨ (on_stt_output env transcript w = (Threw TypeError, w')
          ∧ yielded w' = yielded w ++ new)).
Proof.
  destruct (greetingPattern_test (trim transcript)) eqn:G.
  - rewrite on_stt_output_greeting by done.
    exists [agent_chunk GREETING (now_of env (clock_reads w))]. eexists.
    split; [by repeat constructor|]. split; cycle 1.
    { left. eexists. split; [reflexivity|]. cbn. by rewrite <- ?app_assoc. }
    reflexivity.
  - destruct (on_stt_output_agent transcript w G) as (new & w2 & Q & Y & A & E).
    rewrite E. clear E.
    destruct (run_error _) as [e|]; [destruct (error_json e)|].
    + eexists new, _. split; [exact Q|]. split; cycle 1.
      { left. eexists. split; [reflexivity|]. cbn. by rewrite Y, <- app_assoc. }
      exact A.
    + exists new, w2. split; [exact Q|]. split; [exact A|]. right. by split.
    + eexists new, _. split; [exact Q|]. split; cycle 1.
      { left. eexists. split; [reflexivity|]. cbn. by rewrite Y, <- app_assoc. }
      exact A.
Qed.

(** The turn ends with a turn end when the failure of the run, if any, is
    rendered. *)
Lemma on_stt_output_rendered transcript w :
  failure_rendered (agent_of env (agent_calls w) (turn_call transcript)) →
  ∃ new ts_end w',
    on_stt_output env transcript w = (Ok tt, w')
    ∧ yielded w' = yielded w ++ new ++ [agent_end ts_end]
    ∧ Forall quiet new
    ∧ agent_calls w' =
        (if greetingPattern_test (trim transcript) then agent_calls w
         else agent_calls w ++ [turn_call transcript]).
Proof.
  intros Hr. destruct (greetingPattern_test (trim transcript)) eqn:G.
  - rewrite on_stt_output_greeting by done.
    eexists [_], _, _. cbn. repeat split; eauto. by repeat constructor.
  - destruct (on_stt_output_agent transcript w G) as (new & w2 & Q & Y & A & E).
    rewrite E. clear E.
    destruct (run_error _) as [e|] eqn:He.
    + destruct (Hr e He) as [text Ht]. rewrite Ht.
      eexists new, _, _. split; [reflexivity|]. cbn. rewrite Y, <- app_assoc.
      by repeat split.
    + eexists new, _, _. split; [reflexivity|]. cbn. rewrite Y, <- app_assoc.
      by repeat split.
Qed.

(** The turn has no turn end when the run fails with an error that is not
    rendered: the handler throws. *)
Lemma on_stt_output_lost transcript w e :
  greetingPattern_test (trim transcript) = false →
  run_error (agent_of env (agent_calls w) (turn_call transcript)) = Some e →
  error_json e = None →
  ∃ new w',
    on_stt_output env transcript w = (Threw TypeError, w')
    ∧ yielded w' = yielded w ++ new
    ∧ Forall quiet new.
Proof.
  intros G He Hj.
  destruct (on_stt_output_agent transcript w G) as (new & w2 & Q & Y & A & E).
  rewrite He, Hj in E. by exists new, w2.
Qed.

Lemma on_event_stt_output transcript ts w :
  on_event env (stt_output transcript ts) w
  = on_stt_output env transcript
      (mkWorld (yielded w ++ [stt_output transcript ts])
         (uuid_calls w) (clock_reads w) (agent_calls w)).
Proof. reflexivity. Qed.

(** An event that is no final transcript is re-emitted, and nothing else
    happens. *)
Lemma on_event_other e w :
  is_stt_output e = false →
  on_event env e w
  = (Ok tt, mkWorld (yielded w ++ [e]) (uuid_calls w) (clock_reads w) (agent_calls w)).
Proof. by destruct e. Qed.

Lemma on_event_spec e w :
  ∃ new w' r, on_event env e w = (r, w') ∧ yielded w' = yielded w ++ e :: new.
Proof.
  destruct (is_stt_output e) eqn:He.
  - destruct e; try discriminate He. rewrite on_event_stt_output.
    set (w1 := mkWorld _ _ _ _).
    destruct (on_stt_output_turn transcript w1)
      as (new & w' & _ & _ & [(te & E & Y)|(E & Y)]).
    + exists (new ++ [agent_end te]), w', (Ok tt). split; [exact E|].
      rewrite Y. cbn. by rewrite <- app_assoc.
    + exists new, w', (Threw TypeError). split; [exact E|].
      rewrite Y. cbn. by rewrite <- app_assoc.
  - rewrite on_event_other by done. by eexists [], _, _.
Qed.

(** The loop of the stage: every event it receives is yielded, in order; it
    receives the whole input unless it throws. *)
Lemma loop_spec l w :
  ∃ tail w' r, for_of l (on_event env) w = (r, w')
    ∧ yielded w' = yielded w ++ tail
    ∧ continues_with l tail
    ∧ received_from env l w `sublist_of` tail
    ∧ (received_from env l w = l ∨ ∃ e, r = Threw e).
Proof.
  revert w. induction l as [|e l IH]; intros w; cbn [for_of received_from].
  - exists [], w, (Ok tt). rewrite app_nil_r.
    split; [done|]. split; [done|]. split; [done|]. split; [constructor|by left].
  - destruct (on_event_spec e w) as (new & w1 & r1 & E1 & Y1).
    unfold bind. rewrite E1. destruct r1 as [[]|err].
    + destruct (IH w1) as (tail & w2 & r & E2 & Y2 & _ & Hsub & Hall).
      exists (e :: new ++ tail), w2, r. split; [exact E2|]. split.
      { rewrite Y2, Y1. by rewrite <- app_assoc. }
      split; [cbn; eauto|]. split.
      * constructor. by apply sublist_inserts_l.
      * destruct Hall as [->|?]; [by left|by right].
    + exists (e :: new), w1, (Threw err). split; [done|]. split; [done|].
      split; [cbn; eauto|]. split.
      * constructor. apply sublist_nil_l.
      * right. eauto.
Qed.

(** The run on an input that extends one the stage has returned from. *)
Lemma agentStream_app pre l w1 :
  agentStream env pre init = (Ok tt, w1) →
  agentStream env (pre ++ l) init = for_of l (on_event env) w1.
Proof.
  unfold agentStream, mbind, M_bind, bind, uuidv4. intros E.
  by rewrite for_of_app, E.
Qed.

Lemma served_state pre :
  served env pre → ∃ w1, agentStream env pre init = (Ok tt, w1).
Proof.
  unfold served. destruct (agentStream env pre init) as [[[]|e] w1]; [eauto|done].
Qed.

Lemma agentStream_returns eventStream :
  errors_rendered env → served env eventStream.
Proof.
  intros Hr. unfold served, agentStream, mbind, M_bind, bind, uuidv4.
  generalize (mkWorld (yielded init) (S (uuid_calls init)) (clock_reads init)
                (agent_calls init)).
  induction eventStream as [|e l IH]; intros w; [done|].
  cbn [for_of]. unfold bind. destruct (is_stt_output e) eqn:He.
  - destruct e; try discriminate He. rewrite on_event_stt_output.
    set (w1 := mkWorld _ _ _ _).
    destruct (on_stt_output_rendered transcript w1 (Hr _ _)) as (? & ? & w' & E & _).
    rewrite E. apply IH.
  - rewrite on_event_other by done. apply IH.
Qed.

Lemma on_event_final transcript ts w :
  failure_rendered (agent_of env (agent_calls w) (turn_call transcript)) →
  ∃ new ts_end w',
    on_event env (stt_output transcript ts) w = (Ok tt, w')
    ∧ yielded w' = yielded w ++ stt_output transcript ts :: new ++ [agent_end ts_end]
    ∧ Forall quiet new
    ∧ agent_calls w' =
        (if greetingPattern_test (trim transcript) then agent_calls w
         else agent_calls w ++ [turn_call transcript]).
Proof.
  intros Hr. rewrite on_event_stt_output. set (w1 := mkWorld _ _ _ _).
  destruct (on_stt_output_rendered transcript w1 Hr) as (new & te & w' & E & Y & Q & A).
  exists new, te, w'. split; [exact E|]. split; [|split]; try done.
  rewrite Y. cbn. by rewrite <- app_assoc.
Qed.

(** What the stage receives, it yields; and it receives its whole input
    unless it throws. *)
Lemma output_received eventStream :
  received env eventStream `sublist_of` output env eventStream
  ∧ (received env eventStream = eventStream
     ∨ ∃ e, fst (agentStream env eventStream init) = Threw e).
Proof.
  unfold received, output, agentStream, mbind, M_bind, bind, uuidv4.
  cbn [snd]. set (w0 := mkWorld _ _ _ _).
  destruct (loop_spec eventStream w0) as (tail & w' & r & E & Y & _ & Hsub & Hall).
  rewrite E. cbn. rewrite Y. split; [exact Hsub|].
  destruct Hall as [?|[e ->]]; [by left|right; by exists e].
Qed.

(** X17. On the output of the Transcription Stage (partial and final
    transcripts only), and with an agent whose failures [JSON.stringify]
    renders, the stage yields as many turn ends as it consumed final
    transcripts. *)
Lemma one_turn_end_per_final_transcript eventStream :
  errors_rendered env →
  Forall is_transcript eventStream →
  turn_ends (output env eventStream) = final_transcripts eventStream.
Proof.
  intros Hr Hin. unfold output, agentStream, mbind, M_bind, bind, uuidv4.
  set (w0 := mkWorld _ _ _ _).
  assert (∀ w, ∃ w', for_of eventStream (on_event env) w = (Ok tt, w')
            ∧ turn_ends (yielded w')
              = (turn_ends (yielded w) + final_transcripts eventStream)%nat) as H.
  { induction Hin as [|e l He _ IH]; intros w.
    - exists w. split; [done|]. unfold final_transcripts. simpl. lia.
    - cbn [for_of]. unfold bind. destruct e; try done.
      + rewrite on_event_other by done.
        set (w1 := mkWorld _ _ _ _). destruct (IH w1) as (w' & E & T).
        exists w'. split; [exact E|]. rewrite T. unfold w1. simpl.
        rewrite turn_ends_app. unfold final_transcripts. simpl.
        change (turn_ends [stt_chunk transcript ts]) with 0%nat. lia.
      + destruct (on_event_final transcript ts w (Hr _ _))
          as (new & te & w1 & E1 & Y1 & Q & _).
        rewrite E1. destruct (IH w1) as (w' & E & T).
        exists w'. split; [exact E|]. rewrite T, Y1.
        change (stt_output transcript ts :: new ++ [agent_end te])
          with ([stt_output transcript ts] ++ new ++ [agent_end te]).
        rewrite !turn_ends_app, (turn_ends_segment new).
        * unfold final_transcripts. simpl.
          change (turn_ends [stt_output transcript ts]) with 0%nat.
          change (turn_ends [agent_end te]) with 1%nat. lia.
        * eapply Forall_impl; [exact Q|]. by intros e [? _]. }
  destruct (H w0) as (w' & E & T). rewrite E. simpl. rewrite T. done.
Qed.

(** X18. A turn whose run ends normally, or fails with an error that
    [JSON.stringify] renders: once the stage has served the earlier input,
    its output continues with the transcript, then events none of which is a
    turn end or a final transcript, then one turn end, and only then with the
    re-emission of the next input event; the stage has returned normally
    from the turn, so that it serves the next one. *)
Theorem turn_end_follows_a_rendered_failure pre transcript ts rest :
  served env pre →
  failure_rendered (agent_of env (agent_calls_on env pre) (turn_call transcript)) →
  ∃ new ts_end tail,
    served env (pre ++ [stt_output transcript ts])
    ∧ output env (pre ++ stt_output transcript ts :: rest)
      = output env pre ++ stt_output transcript ts :: new
          ++ agent_end ts_end :: tail
    ∧ Forall quiet new
    ∧ continues_with rest tail.
Proof.
  intros Hpre Hr. destruct (served_state pre Hpre) as [w1 E1].
  unfold agent_calls_on in Hr. rewrite E1 in Hr. cbn [snd] in Hr.
  destruct (on_event_final transcript ts w1 Hr) as (new & te & w2 & E2 & Y2 & Q & _).
  destruct (loop_spec rest w2) as (tail & w3 & r & E3 & Y3 & C & _).
  exists new, te, tail. unfold served, output.
  rewrite !(agentStream_app pre _ w1 E1), E1. cbn [for_of]. unfold bind.
  rewrite E2, E3. cbn. repeat split; try done.
  rewrite Y3, Y2, <- app_assoc. simpl. by rewrite <- app_assoc.
Qed.

(** C1. The claim fails on a turn whose run throws an error that
    [JSON.stringify] cannot render (one that holds a circular reference or a
    BigInt): the handler of the stage throws while logging, before it yields
    the turn end. Once the stage has served the earlier input, its output
    ends with the transcript and events none of which is a turn end, the
    generator ends with the [TypeError], and the rest of the input is never
    consumed. *)
Theorem turn_end_lost_when_error_is_not_rendered pre transcript ts rest e :
  served env pre →
  greetingPattern_test (trim transcript) = false →
  run_error (agent_of env (agent_calls_on env pre) (turn_call transcript)) = Some e →
  error_json e = None →
  ∃ new,
    fst (agentStream env (pre ++ stt_output transcript ts :: rest) init)
      = Threw TypeError
    ∧ output env (pre ++ stt_output transcript ts :: rest)
      = output env pre ++ stt_output transcript ts :: new
    ∧ Forall quiet new.
Proof.
  intros Hpre G He Hj. destruct (served_state pre Hpre) as [w1 E1].
  unfold agent_calls_on in He. rewrite E1 in He. cbn [snd] in He.
  set (w1' := mkWorld (yielded w1 ++ [stt_output transcript ts])
                (uuid_calls w1) (clock_reads w1) (agent_calls w1)).
  destruct (on_stt_output_lost transcript w1' e G He Hj) as (new & w2 & E2 & Y2 & Q).
  exists new. unfold output. rewrite (agentStream_app pre _ w1 E1), E1.
  cbn [for_of]. unfold bind. rewrite on_event_stt_output. fold w1'. rewrite E2.
  cbn. repeat split; try done. rewrite Y2. cbn. by rewrite <- app_assoc.
Qed.

(** C3. When the trimmed text of a final transcript matches the greeting
    pattern, the stage, once it has served the earlier input, yields, right
    after the transcript, one response chunk with the fixed greeting text and
    then one turn end, nothing else (so no tool call) before the next input
    event, and the agent collaborator is not called. *)
Theorem greeting_short_circuit pre transcript ts rest :
  served env pre →
  greetingPattern_test (trim transcript) = true →
  ∃ ts1 ts2 tail,
    output env (pre ++ stt_output transcript ts :: rest)
      = output env pre ++ stt_output transcript ts
          :: agent_chunk GREETING ts1 :: agent_end ts2 :: tail
    ∧ continues_with rest tail
    ∧ agent_calls_on env (pre ++ [stt_output transcript ts])
      = agent_calls_on env pre.
Proof.
  intros Hpre G. destruct (served_state pre Hpre) as [w1 E1].
  unfold output, agent_calls_on. rewrite !(agentStream_app pre _ w1 E1), E1.
  cbn [for_of]. unfold bind. rewrite on_event_stt_output.
  rewrite on_stt_output_greeting by done. set (w2 := mkWorld _ _ _ _).
  destruct (loop_spec rest w2) as (tail & w3 & r & E3 & Y3 & C & _).
  rewrite E3. eexists _, _, tail. cbn. repeat split; try done.
  rewrite Y3. cbn. by rewrite <- !app_assoc.
Qed.

(** Every turn that is not a greeting calls the agent once, with the
    transcript as the only message, the stream mode, and no thread id. *)
Lemma agent_called_without_thread_id pre transcript ts :
  served env pre →
  greetingPattern_test (trim transcript) = false →
  agent_calls_on env (pre ++ [stt_output transcript ts])
  = agent_calls_on env pre ++ [mkAgentCall [transcript] "messages" None].
Proof.
  intros Hpre G. destruct (served_state pre Hpre) as [w1 E1].
  unfold agent_calls_on. rewrite (agentStream_app pre _ w1 E1), E1.
  cbn [for_of]. unfold bind. rewrite on_event_stt_output.
  set (w1' := mkWorld _ _ _ _).
  destruct (on_stt_output_turn transcript w1')
    as (new & w2 & _ & A & [(te & E & _)|(E & _)]);
    rewrite E; cbn; by rewrite A, G.
Qed.

(** C4. On the final transcript "what sandwiches do you have", which is not
    a greeting, the agent collaborator is called with the transcript, but the
    options of the call carry no thread identifier: the identifier that the
    session generated is not passed. *)
Theorem agentStream_thread_id_not_passed ts :
  agent_calls_on env [stt_output "what sandwiches do you have" ts]
  = [mkAgentCall ["what sandwiches do you have"] "messages" None].
Proof.
  apply (agent_called_without_thread_id [] "what sandwiches do you have" ts).
  - reflexivity.
  - by vm_compute.
Qed.

(** *** Identifiers of tool calls and tool results *)

Lemma event_ids_app l1 l2 : event_ids (l1 ++ l2) = event_ids l1 ++ event_ids l2.
Proof. apply omap_app. Qed.

Lemma concat_singletons {A B} (g : A → B) (l : list A) :
  concat ((λ x, [g x]) <$> l) = g <$> l.
Proof. induction l as [|x l IH]; [done|]. cbn. f_equal. exact IH. Qed.

Lemma emits_ids_ret : emits_ids [] (mret tt).
Proof. intros w. exists [], w. by rewrite app_nil_r. Qed.

Lemma emits_ids_bind a b (m : M World unit) (k : unit → M World unit) :
  emits_ids a m → (∀ u, emits_ids b (k u)) → emits_ids (a ++ b) (m ≫= k).
Proof.
  intros Hm Hk w. destruct (Hm w) as (n1 & w1 & E1 & Y1 & I1).
  destruct (Hk tt w1) as (n2 & w2 & E2 & Y2 & I2).
  exists (n1 ++ n2), w2. unfold mbind, M_bind, bind. rewrite E1.
  split; [exact E2|]. split.
  - by rewrite Y2, Y1, app_assoc.
  - by rewrite event_ids_app, I1, I2.
Qed.

Lemma emits_ids_for_of {A} (f : A → list IdItem) (l : list A)
    (body : A → M World unit) :
  Forall (λ x, emits_ids (f x) (body x)) l →
  emits_ids (concat (f <$> l)) (for_of l body).
Proof.
  induction 1 as [|x l Hx _ IH]; simpl.
  - apply emits_ids_ret.
  - by apply (emits_ids_bind (f x) _ (body x) (λ _, for_of l body)).
Qed.

Lemma emits_ids_now_yield ids (f : Z → VoiceAgentEvent) :
  (∀ ts, event_ids [f ts] = ids) → emits_ids ids (ts ← Date_now env; yield (f ts)).
Proof. intros Hf w. eexists [_], _. run_agent. eauto. Qed.

Lemma emits_ids_emit_tool_call tc :
  is_Some (tc_id tc) →
  emits_ids [CallId (default EmptyString (tc_id tc))] (emit_tool_call env tc).
Proof.
  intros [id Hid] w. unfold emit_tool_call. rewrite Hid. run_agent.
  by eexists [_], _.
Qed.

Lemma emits_ids_on_message m :
  intent_ids_supplied m → emits_ids (message_ids m) (on_message env m).
Proof.
  destruct m as [text tcs| cid name content |]; simpl; intros Hm.
  - apply (emits_ids_bind [] _).
    + destruct (truthy text); [|apply emits_ids_ret].
      by apply emits_ids_now_yield.
    + intros _. destruct tcs as [calls|]; [|apply emits_ids_ret].
      rewrite <- (concat_singletons _ calls).
      apply emits_ids_for_of. eapply Forall_impl; [exact Hm|].
      intros tc. apply emits_ids_emit_tool_call.
  - by apply emits_ids_now_yield.
  - apply emits_ids_ret.
Qed.

(** The identifiers in the events of a turn are those on the messages of
    the agent's run, in the same order, when every intent carries an id;
    a greeting turn has none. *)
Lemma turn_event_ids transcript w :
  let run := agent_of env (agent_calls w) (turn_call transcript) in
  Forall intent_ids_supplied (run_messages run) →
  event_ids (turn_events env transcript w) =
    if greetingPattern_test (trim transcript) then []
    else concat (message_ids <$> run_messages run).
Proof.
  intros run Hids. unfold turn_events.
  destruct (greetingPattern_test (trim transcript)) eqn:G.
  - rewrite on_stt_output_greeting by done. cbn. by rewrite drop_app_length.
  - unfold on_stt_output. rewrite G.
    unfold try_catch, mbind at 1, M_bind, bind, agent_stream.
    fold (turn_call transcript). fold run.
    set (w1 := mkWorld _ _ _ _).
    assert (emits_ids (concat (message_ids <$> run_messages run))
              (for_of (run_messages run) (on_message env))) as Hloop.
    { apply emits_ids_for_of. eapply Forall_impl; [exact Hids|].
      apply emits_ids_on_message. }
    destruct (Hloop w1) as (new & w2 & E & Y & I).
    unfold for_await_stream, mbind, M_bind, bind. rewrite E.
    destruct (run_error run) as [e|];
      [run_agent; unfold JSON_stringify, throw; destruct (error_json e)|];
      run_agent; rewrite Y; cbn;
      rewrite <- ?app_assoc, drop_app_length, ?event_ids_app, I; cbn;
      by rewrite ?app_nil_r.
Qed.

(** C5, as amended. In a turn started from any state of a session: when the
    agent collaborator supplies an id on every tool invocation intent of the
    turn, and each tool result message of the turn carries the id of exactly
    one intent that the collaborator yielded earlier in the turn, then every
    tool-result event of the turn has a call id that matches exactly one
    tool-call event yielded earlier in that turn. *)
Theorem tool_results_paired_when_ids_supplied transcript w :
  let run := agent_of env (agent_calls w) (turn_call transcript) in
  Forall intent_ids_supplied (run_messages run) →
  paired (concat (message_ids <$> run_messages run)) →
  paired (event_ids (turn_events env transcript w)).
Proof.
  intros run Hids Hpaired. rewrite turn_event_ids by done.
  destruct (greetingPattern_test (trim transcript)); [|exact Hpaired].
  intros before id after H. by destruct before.
Qed.

End AgentStage.

(** ** The Synthesis Stage *)

Section SynthesisStage.
Import Synthesis Props.

Ltac run_tts :=
  unfold on_event, mbind, M_bind, mret, M_ret, bind, ret, passthrough_push,
    tts_sendText, tts_close, EventQueue.push; simpl.

Lemma append_empty_r (s : string) : s +:+ EmptyString = s.
Proof.
  induction s as [|c s IH]; [done|].
  change (String c (s +:+ EmptyString) = String c s). by rewrite IH.
Qed.

Lemma join_concatenation l : join l = concatenation l.
Proof.
  unfold join. induction l as [|x l IH]; [done|].
  simpl. destruct l as [|y l].
  - simpl. by rewrite append_empty_r.
  - by rewrite IH.
Qed.

Lemma producer_loop_app l1 l2 buffer w :
  producer_loop (l1 ++ l2) buffer w =
  match producer_loop l1 buffer w with
  | (Ok buffer', w') => producer_loop l2 buffer' w'
  | (Threw e, w') => (Threw e, w')
  end.
Proof.
  revert buffer w. induction l1 as [|e l1 IH]; intros buffer w; [done|].
  simpl. unfold mbind, M_bind, bind.
  destruct (on_event buffer e w) as [[b|err] w1]; [apply IH | done].
Qed.

(** Within a turn: the events are pushed, the texts of the response chunks
    are appended to the buffer, and the synthesizer is not called. *)
Lemma producer_loop_segment seg buffer w :
  Forall (λ e, is_agent_end e = false) seg →
  producer_loop seg buffer w =
  (Ok (buffer ++ chunk_texts seg),
   mkWorld (EventQueue.mk (EventQueue.items (passthrough w) ++ seg)
                          (EventQueue.cancelled (passthrough w)))
           (tts_calls w)).
Proof.
  intros Hseg. revert buffer w.
  induction Hseg as [|e seg He _ IH]; intros buffer w.
  - simpl. rewrite !app_nil_r. by destruct w as [[]].
  - simpl. unfold mbind at 1, M_bind, bind.
    destruct e; try discriminate He; run_tts; rewrite IH; simpl;
      rewrite <- ?app_assoc; reflexivity.
Qed.

(** At a turn end: the event is pushed, the joined buffer is sent, and the
    buffer is reset. *)
Lemma producer_loop_turn_end ts buffer w :
  producer_loop [agent_end ts] buffer w =
  (Ok [],
   mkWorld (EventQueue.mk (EventQueue.items (passthrough w) ++ [agent_end ts])
                          (EventQueue.cancelled (passthrough w)))
           (tts_calls w ++ [SendText (join buffer)])).
Proof. reflexivity. Qed.

(** On any input the loop returns normally, pushes every event in order and
    sends one text per turn end. *)
Lemma producer_loop_spec l buffer w :
  ∃ buffer' w' more,
    producer_loop l buffer w = (Ok buffer', w')
    ∧ EventQueue.items (passthrough w') = EventQueue.items (passthrough w) ++ l
    ∧ sent_texts w' = sent_texts w ++ more
    ∧ length more = turn_ends l.
Proof.
  revert buffer w. induction l as [|e l IH]; intros buffer w.
  - exists buffer, w, []. by rewrite !app_nil_r.
  - simpl. unfold mbind at 1, M_bind, bind.
    destruct (is_agent_end e) eqn:He.
    + destruct e; try discriminate He. run_tts.
      set (w1 := mkWorld _ _).
      destruct (IH [] w1) as (b' & w' & more & E & I & T & L).
      exists b', w', (join buffer :: more). rewrite E. split; [done|].
      split; [|split].
      * rewrite I. simpl. by rewrite <- app_assoc.
      * rewrite T. unfold sent_texts, w1. simpl. rewrite omap_app. simpl.
        by rewrite <- app_assoc.
      * unfold turn_ends in *. simpl. by rewrite L.
    + assert (∃ b1, on_event buffer e w =
                (Ok b1, mkWorld (EventQueue.mk (EventQueue.items (passthrough w) ++ [e])
                                   (EventQueue.cancelled (passthrough w)))
                                (tts_calls w))) as [b1 E1].
      { destruct e; try discriminate He; by eexists. }
      rewrite E1. set (w1 := mkWorld _ _).
      destruct (IH b1 w1) as (b' & w' & more & E & I & T & L).
      exists b', w', more. rewrite E. split; [done|]. split; [|split].
      * rewrite I. simpl. by rewrite <- app_assoc.
      * by rewrite T.
      * unfold turn_ends in *. simpl. by rewrite He.
Qed.

(** After an input that ends a turn, the buffer is empty. *)
Lemma producer_loop_boundary l buffer w :
  turn_boundary l → l ≠ [] → ∃ w', producer_loop l buffer w = (Ok [], w').
Proof.
  intros [->|(l' & ts & ->)] Hne; [done|].
  rewrite producer_loop_app.
  destruct (producer_loop_spec l' buffer w) as (b1 & w1 & more & E & _).
  rewrite E, producer_loop_turn_end. by eexists.
Qed.

(** The producer's run on an input cut at a turn end. *)
Lemma producer_loop_cut pre seg ts post w :
  turn_boundary pre → Forall (λ e, is_agent_end e = false) seg →
  ∃ before after buffer' w1 w2 w3,
    producer_loop pre [] w = (Ok [], w1)
    ∧ sent_texts w1 = sent_texts w ++ before ∧ length before = turn_ends pre
    ∧ producer_loop (pre ++ seg ++ [agent_end ts]) [] w = (Ok [], w2)
    ∧ sent_texts w2 = sent_texts w ++ before ++ [join (chunk_texts seg)]
    ∧ producer_loop (pre ++ seg ++ agent_end ts :: post) [] w = (Ok buffer', w3)
    ∧ sent_texts w3 = sent_texts w ++ before ++ [join (chunk_texts seg)] ++ after
    ∧ length after = turn_ends post.
Proof.
  intros Hpre Hseg.
  destruct (producer_loop_spec pre [] w) as (b1 & w1 & before & E1 & _ & T1 & L1).
  assert (b1 = []) as ->.
  { destruct (decide (pre = [])) as [->|Hne].
    - simpl in E1. by injection E1.
    - destruct (producer_loop_boundary pre [] w Hpre Hne) as [w' E'].
      rewrite E1 in E'. by injection E'. }
  set (w2 := mkWorld
    (EventQueue.mk (EventQueue.items (passthrough w1) ++ seg ++ [agent_end ts])
                   (EventQueue.cancelled (passthrough w1)))
    (tts_calls w1 ++ [SendText (join (chunk_texts seg))])).
  assert (producer_loop (seg ++ [agent_end ts]) [] w1 = (Ok [], w2)) as E2.
  { rewrite producer_loop_app, producer_loop_segment by done.
    rewrite producer_loop_turn_end. simpl. by rewrite <- app_assoc. }
  assert (sent_texts w2 = sent_texts w ++ before ++ [join (chunk_texts seg)]) as T2.
  { unfold w2, sent_texts in *. simpl. rewrite omap_app, T1. simpl.
    by rewrite <- app_assoc. }
  destruct (producer_loop_spec post [] w2) as (b3 & w3 & after & E3 & _ & T3 & L3).
  exists before, after, b3, w1, w2, w3.
  split; [done|]. split; [done|]. split; [done|]. split.
  { by rewrite producer_loop_app, E1. }
  split; [done|]. split.
  { change (agent_end ts :: post) with ([agent_end ts] ++ post).
    rewrite (app_assoc seg), producer_loop_app, E1, producer_loop_app, E2.
    exact E3. }
  split; [|done]. rewrite T3, T2. by rewrite <- !app_assoc.
Qed.

(** C2. For every turn of the input, the turn being the events [seg]
    between a turn boundary (the start of the session or the previous turn
    end) and the next turn end: the text passed to the synthesizer at that
    turn end is the concatenation, in order, of the texts of the response
    chunks of [seg]; the buffer is empty afterwards; and one text is sent per
    turn end of the input, also for a turn without any response chunk. *)
Theorem ttsStream_accumulation_law pre seg ts post :
  turn_boundary pre → Forall (λ e, is_agent_end e = false) seg →
  let w := snd (producer (pre ++ seg ++ agent_end ts :: post) init) in
  sent_texts w !! turn_ends pre = Some (concatenation (chunk_texts seg))
  ∧ fst (producer_loop (pre ++ seg ++ [agent_end ts]) [] init) = Ok []
  ∧ length (sent_texts w) = turn_ends (pre ++ seg ++ agent_end ts :: post).
Proof.
  intros Hpre Hseg.
  destruct (producer_loop_cut pre seg ts post init Hpre Hseg)
    as (before & after & b3 & w1 & w2 & w3 & E1 & T1 & L1 & E2 & T2 & E3 & T3 & L3).
  assert (sent_texts (snd (producer (pre ++ seg ++ agent_end ts :: post) init))
          = before ++ [join (chunk_texts seg)] ++ after) as T.
  { unfold producer, try_finally, mbind, M_bind, bind. rewrite E3. simpl.
    unfold sent_texts in *. simpl. rewrite omap_app, T3. simpl.
    by rewrite app_nil_r. }
  simpl. rewrite T. split; [|split].
  - rewrite lookup_app_r by lia. rewrite <- L1, Nat.sub_diag. simpl.
    by rewrite join_concatenation.
  - by rewrite E2.
  - rewrite !length_app, !turn_ends_app, (turn_ends_segment seg) by done.
    change (agent_end ts :: post) with ([agent_end ts] ++ post).
    rewrite turn_ends_app. change (turn_ends [agent_end ts]) with 1%nat.
    simpl. lia.
Qed.

(** Whatever the schedule of the two tasks, the arrivals in the queue keep
    the pushes of the first task, in order. *)
Lemma arrivals_sublist {A} schedule (first second : list A) :
  first `sublist_of` EventQueue.arrivals schedule first second.
Proof.
  revert first second.
  induction schedule as [|b schedule IH]; intros first second.
  - simpl. by apply sublist_inserts_r.
  - destruct b.
    + destruct first as [|x first]; simpl.
      * apply sublist_nil_l.
      * constructor. apply IH.
    + destruct second as [|y second]; simpl.
      * by apply sublist_inserts_r.
      * constructor. apply IH.
Qed.

(** What the producer pushes is its input. *)
Lemma producer_pushes eventStream :
  EventQueue.items (passthrough (snd (producer eventStream init))) = eventStream.
Proof.
  destruct (producer_loop_spec eventStream [] init) as (b & w & more & E & I & _).
  unfold producer, try_finally, mbind, M_bind, bind. rewrite E. simpl. exact I.
Qed.

End SynthesisStage.

(** C7. Both stages preserve the events they receive. The events that the
    Agent Stage receives from its input form a subsequence of its output, and
    they are its whole input unless the stage throws, after which it receives
    nothing more. The input of the Synthesis Stage is a subsequence of its
    output under every schedule of its two tasks and whatever the
    synthesizer's own events are. The events are re-emitted as they are and
    in their upstream order. *)
Theorem stages_preserve_events :
  (∀ env eventStream,
     Props.received env eventStream `sublist_of` Agent.output env eventStream
     ∧ (Props.received env eventStream = eventStream
        ∨ ∃ e, fst (Agent.agentStream env eventStream Agent.init) = Threw e))
  ∧ (∀ schedule eventStream audio,
       eventStream `sublist_of` Synthesis.ttsStream schedule eventStream audio).
Proof.
  split.
  - apply output_received.
  - intros schedule eventStream audio. unfold Synthesis.ttsStream.
    rewrite producer_pushes. apply arrivals_sublist.
Qed.

(** ** The ingress adapter *)

(** C8. Over any sequence of frames, the handler returns normally on every
    frame, leaves the input channel open, and what it pushes into the channel
    is, in order, the bytes of exactly the frames that are a [Buffer] or an
    [ArrayBuffer]; every other frame leaves the channel as it was. *)
Theorem onMessage_pushes_exactly_binary frames q :
  for_of frames Ingress.onMessage q =
  (Ok tt, EventQueue.mk (EventQueue.items q ++ omap Ingress.binary_payload frames)
                        (EventQueue.cancelled q)).
Proof.
  revert q. induction frames as [|data frames IH]; intros q.
  - simpl. rewrite app_nil_r. by destruct q.
  - simpl. unfold bind.
    destruct data; simpl; rewrite IH; simpl; rewrite <- ?app_assoc; try done;
      by destruct q.
Qed.

(** ** The order skills *)

Section OrderSkills.
Import Order Props.

Lemma findIndex_from_first {A} (p : A → bool) l1 x l2 k :
  Forall (λ y, p y = false) l1 → p x = true →
  findIndex_from p (l1 ++ x :: l2) k = k + Z.of_nat (length l1).
Proof.
  intros H1 Hx. revert k. induction H1 as [|y l1 Hy _ IH]; intros k; simpl.
  - rewrite Hx. lia.
  - rewrite Hy, IH. lia.
Qed.

Lemma findIndex_from_none {A} (p : A → bool) l k :
  Forall (λ y, p y = false) l → findIndex_from p l k = -1.
Proof.
  intros H. revert k. induction H as [|y l Hy _ IH]; intros k; simpl; [done|].
  by rewrite Hy, IH.
Qed.

Lemma findIndex_first {A} (p : A → bool) l1 x l2 :
  Forall (λ y, p y = false) l1 → p x = true →
  findIndex p (l1 ++ x :: l2) = Z.of_nat (length l1).
Proof. intros. unfold findIndex. by rewrite findIndex_from_first. Qed.

Lemma findIndex_none {A} (p : A → bool) l :
  Forall (λ y, p y = false) l → findIndex p l = -1.
Proof. apply findIndex_from_none. Qed.

Lemma same_line_test item_ size_ i :
  bool_decide (toLowerCase (item i) = toLowerCase item_)
    && bool_decide (size i = size_) = true ↔ same_line item_ size_ i.
Proof.
  unfold same_line, eq_ignore_case.
  rewrite andb_true_iff, !bool_decide_eq_true. done.
Qed.

Lemma not_same_line_test item_ size_ l :
  Forall (λ i, ¬ same_line item_ size_ i) l →
  Forall (λ i, bool_decide (toLowerCase (item i) = toLowerCase item_)
                 && bool_decide (size i = size_) = false) l.
Proof.
  intros H. eapply Forall_impl; [exact H|]. intros i Hi.
  apply not_true_is_false. by rewrite same_line_test.
Qed.

(** The state after [addToOrder], by the index that [findIndex] returns. *)
Lemma addToOrder_state item_ quantity_ size_ customerId orderState :
  let c := default "default" customerId in
  let items := default [] (orderState !! c) in
  let k := findIndex (λ i, bool_decide (toLowerCase (item i) = toLowerCase item_)
                           && bool_decide (size i = size_)) items in
  (addToOrder item_ quantity_ size_ customerId orderState).2 =
    if 0 <=? k
    then <[c := alter (add_quantity quantity_) (Z.to_nat k) items]> orderState
    else <[c := items ++ [mkLine item_ quantity_ size_]]> orderState.
Proof.
  intros c items k. unfold k, items, addToOrder. fold c.
  destruct (orderState !! c) as [its|] eqn:E; simpl.
  - rewrite E. simpl.
    match goal with |- context [0 <=? ?k] => by destruct (0 <=? k) end.
  - rewrite lookup_insert_eq. simpl. by rewrite insert_insert_eq.
Qed.

Lemma alter_middle {A} (f : A → A) l1 x l2 :
  alter f (length l1) (l1 ++ x :: l2) = l1 ++ f x :: l2.
Proof. induction l1 as [|y l1 IH]; [done|]. cbn. f_equal. exact IH. Qed.

Lemma delete_middle {A} (l1 : list A) x l2 :
  delete (length l1) (l1 ++ x :: l2) = l1 ++ l2.
Proof. induction l1 as [|y l1 IH]; [done|]. cbn. f_equal. exact IH. Qed.

(** A list either has a first element that satisfies [p], or none. *)
Lemma first_match_or_none {A} (p : A → bool) (l : list A) :
  (∃ l1 x l2, l = l1 ++ x :: l2 ∧ Forall (λ y, p y = false) l1 ∧ p x = true)
  ∨ Forall (λ y, p y = false) l.
Proof.
  induction l as [|y l IH].
  - right. constructor.
  - destruct (p y) eqn:Hy.
    + left. by exists [], y, l.
    + destruct IH as [(l1 & x & l2 & -> & H1 & Hx)|Hnone].
      * left. exists (y :: l1), x, l2. repeat split; try done. by constructor.
      * right. by constructor.
Qed.

(** C9, as amended. A call of [addToOrder] on the customer's order [items]
    (empty when the customer has none): when [items] has a line with the
    given item, up to case, and the given size, the quantity of the first
    such line becomes the sum, as JavaScript numbers (the double nearest to
    the exact sum), of its quantity and the given quantity, and no line is
    added; when it has none, a line with the given item, quantity and size is
    appended at the end. All other lines, and the orders of other customers,
    are unchanged. *)
Theorem addToOrder_merges_or_appends item_ quantity_ size_ customerId orderState :
  let c := default "default" customerId in
  let items := default [] (orderState !! c) in
  let orderState' := (addToOrder item_ quantity_ size_ customerId orderState).2 in
  (∀ l1 x l2,
     items = l1 ++ x :: l2 → same_line item_ size_ x →
     Forall (λ i, ¬ same_line item_ size_ i) l1 →
     orderState'
     = <[c := l1 ++ mkLine (item x) (quantity x + quantity_)%float (size x) :: l2]>
         orderState)
  ∧ (Forall (λ i, ¬ same_line item_ size_ i) items →
     orderState' = <[c := items ++ [mkLine item_ quantity_ size_]]> orderState).
Proof.
  intros c items orderState'. unfold orderState'.
  rewrite addToOrder_state. fold c. fold items. simpl. split.
  - intros l1 x l2 Hitems Hx Hl1. rewrite Hitems.
    rewrite findIndex_first; [|by apply not_same_line_test|by apply same_line_test].
    replace (0 <=? Z.of_nat (length l1)) with true by (symmetry; apply Z.leb_le; lia).
    by rewrite Nat2Z.id, alter_middle.
  - intros Hnone.
    rewrite findIndex_none by (by apply not_same_line_test). done.
Qed.

Lemma line_key_add_quantity q x : line_key (add_quantity q x) = line_key x.
Proof. reflexivity. Qed.

(** [addToOrder] keeps the lines of every order distinct, so that the line
    it merges into is the only one with that item and size. *)
Lemma addToOrder_keeps_lines_distinct item_ quantity_ size_ customerId orderState :
  all_distinct orderState →
  all_distinct (addToOrder item_ quantity_ size_ customerId orderState).2.
Proof.
  intros Hall. rewrite addToOrder_state.
  set (c := default "default" customerId).
  set (items := default [] (orderState !! c)).
  set (p := λ i, bool_decide (toLowerCase (item i) = toLowerCase item_)
                 && bool_decide (size i = size_)).
  assert (distinct_lines items) as Hitems.
  { unfold items. destruct (orderState !! c) as [l|] eqn:E; simpl.
    - by apply (Hall c).
    - constructor. }
  simpl.
  assert (∀ l', distinct_lines l' → all_distinct (<[c := l']> orderState)) as Hins.
  { intros l' Hl' c' l. destruct (decide (c = c')) as [<-|Hne].
    - rewrite lookup_insert_eq. by intros [= <-].
    - rewrite lookup_insert_ne by done. apply Hall. }
  destruct (first_match_or_none p items) as [(l1 & x & l2 & E & H1 & Hx)|Hnone].
  - rewrite E, findIndex_first by done.
    replace (0 <=? Z.of_nat (length l1)) with true by (symmetry; apply Z.leb_le; lia).
    rewrite Nat2Z.id, alter_middle. apply Hins.
    unfold distinct_lines in *. rewrite E in Hitems.
    by rewrite fmap_app, fmap_cons, line_key_add_quantity, <- fmap_cons, <- fmap_app.
  - rewrite findIndex_none by done. simpl. apply Hins.
    unfold distinct_lines in *. rewrite fmap_app. simpl.
    apply NoDup_app. split; [done|]. split; [|apply NoDup_singleton].
    intros key Hkey Hnew. apply list_elem_of_singleton in Hnew as ->.
    apply list_elem_of_fmap in Hkey as (i & Hi & Hin).
    rewrite Forall_forall in Hnone. specialize (Hnone i Hin).
    apply not_true_iff_false in Hnone. apply Hnone. apply same_line_test.
    unfold line_key in Hi. simpl in Hi. injection Hi as Hi1 Hi2. by split.
Qed.

Lemma not_eq_ignore_case_test item_ l :
  Forall (λ i, ¬ eq_ignore_case (item i) item_) l →
  Forall (λ i, bool_decide (toLowerCase (item i) = toLowerCase item_) = false) l.
Proof.
  intros H. eapply Forall_impl; [exact H|]. intros i Hi.
  by apply bool_decide_eq_false.
Qed.

(** C10. A call of [removeFromOrder]: when the customer's order has a line
    with the given item up to case, the first such line, whatever its size,
    is removed and the other lines stay as they are and in their order; when
    the customer has no order, or an empty one, or no line has the given
    item, the order state is unchanged. *)
Theorem removeFromOrder_removes_first_match item_ customerId orderState :
  let c := default "default" customerId in
  let orderState' := (removeFromOrder item_ customerId orderState).2 in
  (∀ l1 x l2,
     orderState !! c = Some (l1 ++ x :: l2) → eq_ignore_case (item x) item_ →
     Forall (λ i, ¬ eq_ignore_case (item i) item_) l1 →
     orderState' = <[c := l1 ++ l2]> orderState)
  ∧ (orderState !! c = None ∨ orderState !! c = Some []
     ∨ (∃ items, orderState !! c = Some items
                 ∧ Forall (λ i, ¬ eq_ignore_case (item i) item_) items) →
     orderState' = orderState).
Proof.
  intros c orderState'. unfold orderState', removeFromOrder. fold c. split.
  - intros l1 x l2 E Hx Hl1. rewrite E.
    assert (findIndex (λ i, bool_decide (toLowerCase (item i) = toLowerCase item_))
              (l1 ++ x :: l2) = Z.of_nat (length l1)) as Hk.
    { apply findIndex_first; [by apply not_eq_ignore_case_test|].
      by apply bool_decide_eq_true. }
    destruct (l1 ++ x :: l2) as [|y l] eqn:El; [by destruct l1|].
    rewrite Hk.
    replace (0 <=? Z.of_nat (length l1)) with true by (symmetry; apply Z.leb_le; lia).
    rewrite Nat2Z.id, <- El.
    rewrite lookup_app_r, Nat.sub_diag by lia. simpl.
    by rewrite delete_middle.
  - intros [E|[E|(items & E & Hnone)]]; rewrite E; try done.
    destruct items as [|y l] eqn:El; [done|].
    rewrite findIndex_none by (by apply not_eq_ignore_case_test). done.
Qed.

End OrderSkills.

(** ** The properties at concrete inputs *)

Section Instances.
Import Props Samples.

(** The greeting pattern and [trim] on some transcripts. *)
Example greeting_tests :
  (Agent.greetingPattern_test <$> (trim <$>
     ["hello"; " Good Morning. "; "HEY."; "hi there"; "oh hi"; "hello.."; "good  evening";
      EmptyString]))
  = [true; true; true; false; false; false; false; false].
Proof. by vm_compute. Qed.

(** A run whose agent fails in the middle of a turn: the turn still ends
    with one turn end, and the next turn is served. *)
Example failing_agent_turn :
  Agent.agentStream env_failing
    [stt_output "what sandwiches do you have" 1; stt_output "hey" 2] Agent.init
  = (Ok tt,
     Agent.mkWorld
       [stt_output "what sandwiches do you have" 1;
        agent_chunk "Let me" 1700000000000; agent_end 1700000000001;
        stt_output "hey" 2;
        agent_chunk Agent.GREETING 1700000000002; agent_end 1700000000003]
       1 4 [turn_call "what sandwiches do you have"]).
Proof. by vm_compute. Qed.

(** A run whose agent fails with an error that holds a reference to
    itself: the handler throws while rendering it, the turn gets no turn end,
    the generator ends, and the greeting that follows is never served. *)
Example circular_error_turn :
  Agent.agentStream env_circular
    [stt_output "what sandwiches do you have" 1; stt_output "hey" 2] Agent.init
  = (Threw TypeError,
     Agent.mkWorld
       [stt_output "what sandwiches do you have" 1;
        agent_chunk "Let me" 1700000000000]
       1 1 [turn_call "what sandwiches do you have"]).
Proof. by vm_compute. Qed.

Lemma turn_end_lost_witness :
  served env_circular [stt_chunk "what" 0]
  ∧ Agent.greetingPattern_test (trim "what sandwiches do you have") = false
  ∧ run_error (agent_of env_circular (agent_calls_on env_circular [stt_chunk "what" 0])
                 (turn_call "what sandwiches do you have"))
    = Some (mkError "request failed" None)
  ∧ error_json (mkError "request failed" None) = None
  ∧ ∃ new,
      fst (Agent.agentStream env_circular
             ([stt_chunk "what" 0]
              ++ stt_output "what sandwiches do you have" 1 :: [stt_output "hey" 2])
             Agent.init)
        = Threw TypeError
      ∧ Agent.output env_circular
          ([stt_chunk "what" 0]
           ++ stt_output "what sandwiches do you have" 1 :: [stt_output "hey" 2])
        = Agent.output env_circular [stt_chunk "what" 0]
            ++ stt_output "what sandwiches do you have" 1 :: new
      ∧ Forall quiet new.
Proof.
  split; [reflexivity|]. split; [by vm_compute|]. split; [reflexivity|].
  split; [reflexivity|].
  apply (turn_end_lost_when_error_is_not_rendered env_circular [stt_chunk "what" 0]
           "what sandwiches do you have" 1 [stt_output "hey" 2]
           (mkError "request failed" None)).
  - reflexivity.
  - by vm_compute.
  - reflexivity.
  - reflexivity.
Defined.

Lemma greeting_short_circuit_witness :
  served env_menu [stt_chunk "Hel" 1]
  ∧ Agent.greetingPattern_test (trim "  Hello. ") = true
  ∧ ∃ ts1 ts2 tail,
      Agent.output env_menu ([stt_chunk "Hel" 1] ++ stt_output "  Hello. " 2 :: [])
      = Agent.output env_menu [stt_chunk "Hel" 1] ++ stt_output "  Hello. " 2
          :: agent_chunk Agent.GREETING ts1 :: agent_end ts2 :: tail
      ∧ continues_with [] tail
      ∧ agent_calls_on env_menu ([stt_chunk "Hel" 1] ++ [stt_output "  Hello. " 2])
        = agent_calls_on env_menu [stt_chunk "Hel" 1].
Proof.
  split; [reflexivity|]. split; [by vm_compute|].
  apply (greeting_short_circuit env_menu [stt_chunk "Hel" 1] "  Hello. " 2 []).
  - reflexivity.
  - by vm_compute.
Defined.

Lemma ttsStream_accumulation_law_witness :
  turn_boundary first_turn
  ∧ Forall (λ e, is_agent_end e = false) second_turn
  ∧ (let w := snd (Synthesis.producer
                     (first_turn ++ second_turn ++ agent_end 8 :: afterwards)
                     Synthesis.init) in
     Synthesis.sent_texts w !! turn_ends first_turn
       = Some (concatenation (chunk_texts second_turn))
     ∧ fst (Synthesis.producer_loop (first_turn ++ second_turn ++ [agent_end 8]) []
              Synthesis.init) = Ok []
     ∧ length (Synthesis.sent_texts w)
       = turn_ends (first_turn ++ second_turn ++ agent_end 8 :: afterwards)).
Proof.
  assert (turn_boundary first_turn) as Hb.
  { right. by exists [stt_output "hello" 1; agent_chunk "Hi!" 2], 3. }
  assert (Forall (λ e, is_agent_end e = false) second_turn) as Hs.
  { by repeat constructor. }
  split; [exact Hb|]. split; [exact Hs|].
  exact (ttsStream_accumulation_law first_turn second_turn 8 afterwards Hb Hs).
Defined.

(** The text sent for the second turn of the sample input. *)
Example second_turn_text :
  Synthesis.sent_texts
    (snd (Synthesis.producer (first_turn ++ second_turn ++ agent_end 8 :: afterwards)
            Synthesis.init))
  = ["Hi!"; "We have the Classic BLT."].
Proof. by vm_compute. Qed.

(** C5, as stated, fails: when the collaborator omits the call id on a tool
    result message, the tool-result event gets the empty string as call id,
    which matches no tool-call event of the turn. *)
Lemma tool_result_without_call_id_unpaired :
  ¬ paired (event_ids (turn_events env_no_result_id "what sandwiches do you have"
                         Agent.init)).
Proof.
  intros H.
  specialize (H [CallId "call_1"] EmptyString [] eq_refl).
  vm_compute in H. discriminate H.
Qed.

(** Likewise when the collaborator omits the id of the intent: the
    tool-call event gets a generated id, which the result cannot carry. *)
Example tool_call_without_id_unpaired :
  event_ids (turn_events env_no_ids "what sandwiches do you have" Agent.init)
  = [CallId "uuid-0"; ResultId EmptyString].
Proof. by vm_compute. Qed.

(** The identifiers of the sample run with ids are paired. *)
Lemma menu_run_paired :
  paired (concat (message_ids <$> run_messages menu_run)).
Proof.
  intros before id after H.
  destruct before as [|a [|b [|c before]]]; simplify_eq/=. reflexivity.
Qed.

Lemma tool_results_paired_witness :
  Forall intent_ids_supplied (run_messages menu_run)
  ∧ paired (concat (message_ids <$> run_messages menu_run))
  ∧ paired (event_ids (turn_events env_menu "what sandwiches do you have" Agent.init)).
Proof.
  assert (Forall intent_ids_supplied (run_messages menu_run)) as Hids.
  { repeat constructor. by eexists. }
  split; [exact Hids|]. split; [exact menu_run_paired|].
  exact (tool_results_paired_when_ids_supplied env_menu
           "what sandwiches do you have" Agent.init Hids menu_run_paired).
Defined.

(** C9, as stated, fails: the quantity of the line is not always increased
    by the given quantity. On an order that holds 9007199254740992 (two to
    the power 53) of an item, adding one more leaves the quantity, and the
    whole order state, as it was: the sum is rounded to the nearest double. *)
Lemma addToOrder_one_more_is_lost :
  Order.addToOrder "BLT" 1 None None many_blt
  = ("Updated your order: now 9007199254740992 BLTs in total.", many_blt).
Proof. by vm_compute. Qed.

(** The messages of the sample order: the quantities are rendered as the
    template literals of the code render them. *)
Example order_messages :
  (Order.addToOrder "turkey club" 2 (Some "large") None two_lines).1
  = "Updated your order: now 3 large turkey clubs in total."
  ∧ (Order.addToOrder "Chips" 0.5 None None two_lines).1
    = "Added 0.5 Chips to your order."
  ∧ (Order.addToOrder "Chips" 1e21 None None two_lines).1
    = "Added 1e+21 Chipss to your order."
  ∧ (Order.removeFromOrder "blt" None two_lines).1
    = "Removed 1 BLT from your order."
  ∧ (Order.getOrderStatus None two_lines).1
    = "Here's what you have so far: 1 large Turkey Club, 1 BLT. Would you like to add anything else, or are you ready to confirm?".
Proof. by vm_compute. Qed.

(** [Number::toString] on some numbers. *)
Example number_toString_samples :
  JsNumber.toString <$>
    [1; 12; 0.5; 1.5; (1 / 10 + 2 / 10); 100; 147573952589676412928; 1e21;
     (1 / 1000000); (1 / 10000000); 9007199254740992; (9007199254740992 + 1);
     0x0.0000000000001p-1022; 0x1.fffffffffffffp+1023;
     (-2.5); (1 / 0); (0 / 0)]%float
  = ["1"; "12"; "0.5"; "1.5"; "0.30000000000000004"; "100";
     "147573952589676410000"; "1e+21"; "0.000001"; "1e-7";
     "9007199254740992"; "9007199254740992"; "5e-324"; "1.7976931348623157e+308";
     "-2.5"; "Infinity"; "NaN"].
Proof. by vm_compute. Qed.

Lemma addToOrder_witness :
  (default [] (two_lines !! "default") = [] ++ turkey :: [blt]
   ∧ same_line "turkey club" (Some "large") turkey
   ∧ (Order.addToOrder "turkey club" 2 (Some "large") None two_lines).2
     = <["default" :=
           [] ++ Order.mkLine (Order.item turkey) (Order.quantity turkey + 2)%float
                   (Order.size turkey) :: [blt]]> two_lines)
  ∧ (Forall (λ i, ¬ same_line "BLT" (Some "small") i)
            (default [] (two_lines !! "default"))
     ∧ (Order.addToOrder "BLT" 1 (Some "small") None two_lines).2
       = <["default" := default [] (two_lines !! "default")
                         ++ [Order.mkLine "BLT" 1 (Some "small")]]> two_lines).
Proof.
  split.
  - assert (default [] (two_lines !! "default") = [] ++ turkey :: [blt]) as H1
      by (by vm_compute).
    assert (same_line "turkey club" (Some "large") turkey) as H2 by (by split).
    split; [exact H1|]. split; [exact H2|].
    exact (proj1 (addToOrder_merges_or_appends "turkey club" 2 (Some "large") None
                    two_lines) [] turkey [blt] H1 H2 (Forall_nil_2 _)).
  - assert (Forall (λ i, ¬ same_line "BLT" (Some "small") i)
              (default [] (two_lines !! "default"))) as H.
    { change (default [] (two_lines !! "default")) with [turkey; blt].
      repeat constructor; by intros [? ?]. }
    split; [exact H|].
    exact (proj2 (addToOrder_merges_or_appends "BLT" 1 (Some "small") None
                    two_lines) H).
Defined.

Lemma removeFromOrder_witness :
  (two_lines !! "default" = Some ([turkey] ++ blt :: [])
   ∧ eq_ignore_case (Order.item blt) "blt"
   ∧ Forall (λ i, ¬ eq_ignore_case (Order.item i) "blt") [turkey]
   ∧ (Order.removeFromOrder "blt" None two_lines).2
     = <["default" := [turkey] ++ []]> two_lines)
  ∧ (two_lines !! "nobody" = None
     ∧ (Order.removeFromOrder "blt" (Some "nobody") two_lines).2 = two_lines).
Proof.
  split.
  - assert (two_lines !! "default" = Some ([turkey] ++ blt :: [])) as H1
      by (by vm_compute).
    assert (eq_ignore_case (Order.item blt) "blt") as H2 by done.
    assert (Forall (λ i, ¬ eq_ignore_case (Order.item i) "blt") [turkey]) as H3
      by (by repeat constructor).
    split; [exact H1|]. split; [exact H2|]. split; [exact H3|].
    exact (proj1 (removeFromOrder_removes_first_match "blt" None two_lines)
             [turkey] blt [] H1 H2 H3).
  - assert (two_lines !! "nobody" = None) as H by (by vm_compute).
    split; [exact H|].
    exact (proj2 (removeFromOrder_removes_first_match "blt" (Some "nobody") two_lines)
             (or_introl H)).
Defined.

End Instances.

(** * More of the code *)

(** ** The order skills: how the tools compose *)

Section OrderTools.
Import Order Props.

Lemma removeFromOrder_cases item_ customerId orderState :
  let c := default "default" customerId in
  let orderState' := (removeFromOrder item_ customerId orderState).2 in
  (∃ l1 x l2, orderState !! c = Some (l1 ++ x :: l2)
     ∧ Forall (λ i, ¬ eq_ignore_case (item i) item_) l1
     ∧ eq_ignore_case (item x) item_
     ∧ orderState' = <[c := l1 ++ l2]> orderState)
  ∨ ((orderState !! c = None ∨ orderState !! c = Some []
      ∨ ∃ items, orderState !! c = Some items
                 ∧ Forall (λ i, ¬ eq_ignore_case (item i) item_) items)
     ∧ orderState' = orderState).
Proof.
  intros c orderState'. unfold orderState', removeFromOrder. fold c.
  destruct (orderState !! c) as [items|] eqn:E; [|right; by split; [left|]].
  set (p := λ i, bool_decide (toLowerCase (item i) = toLowerCase item_)).
  assert (∀ l, Forall (λ y, p y = false) l →
               Forall (λ i, ¬ eq_ignore_case (item i) item_) l) as Hnot.
  { intros l H. eapply Forall_impl; [exact H|]. intros i Hi.
    by apply bool_decide_eq_false in Hi. }
  destruct (first_match_or_none p items) as [(l1 & x & l2 & El & H1 & Hx)|Hnone].
  - left. exists l1, x, l2. subst items.
    split; [done|]. split; [auto|]. split; [by apply bool_decide_eq_true in Hx|].
    destruct (l1 ++ x :: l2) as [|y l] eqn:El; [by destruct l1|].
    rewrite <- El, findIndex_first by done.
    replace (0 <=? Z.of_nat (length l1)) with true by (symmetry; apply Z.leb_le; lia).
    rewrite Nat2Z.id, lookup_app_r, Nat.sub_diag by lia. simpl.
    by rewrite delete_middle.
  - right. split.
    + right. right. exists items. auto.
    + destruct items as [|y l]; [done|]. by rewrite findIndex_none.
Qed.

Lemma cancelOrder_state reason customerId orderState :
  let c := default "default" customerId in
  (cancelOrder reason customerId orderState).2 =
    match orderState !! c with
    | Some (_ :: _) => delete c orderState
    | _ => orderState
    end.
Proof.
  intros c. unfold cancelOrder. fold c.
  destruct (orderState !! c) as [[|y l]|]; try done.
  destruct reason as [r|]; [destruct (truthy r)|]; done.
Qed.

Lemma getOrderStatus_state customerId orderState :
  (getOrderStatus customerId orderState).2 = orderState.
Proof.
  unfold getOrderStatus. by destruct (orderState !! _) as [[|y l]|].
Qed.

Lemma all_distinct_insert c l (orderState : gmap string (list OrderLine)) :
  all_distinct orderState → distinct_lines l → all_distinct (<[c := l]> orderState).
Proof.
  intros Hall Hl c' l'. destruct (decide (c = c')) as [<-|Hne].
  - rewrite lookup_insert_eq. by intros [= <-].
  - rewrite lookup_insert_ne by done. apply Hall.
Qed.

Lemma removeFromOrder_keeps_lines_distinct item_ customerId orderState :
  all_distinct orderState →
  all_distinct (removeFromOrder item_ customerId orderState).2.
Proof.
  intros Hall.
  destruct (removeFromOrder_cases item_ customerId orderState)
    as [(l1 & x & l2 & E & _ & _ & ->)|[_ ->]]; [|done].
  apply all_distinct_insert; [done|].
  specialize (Hall _ _ E). unfold distinct_lines in *.
  rewrite fmap_app, fmap_cons in Hall. rewrite fmap_app.
  apply NoDup_app in Hall as (H1 & H2 & H3). apply NoDup_cons in H3 as [_ H3].
  apply NoDup_app. split; [done|]. split; [|done].
  intros k Hk Hk2. apply (H2 k Hk). by right.
Qed.

Lemma cancelOrder_keeps_lines_distinct reason customerId orderState :
  all_distinct orderState →
  all_distinct (cancelOrder reason customerId orderState).2.
Proof.
  intros Hall. rewrite cancelOrder_state.
  destruct (orderState !! _) as [[|y l]|]; try done.
  intros c' l' Hc'. apply lookup_delete_Some in Hc' as [_ Hc']. by apply (Hall c').
Qed.

(** X1. Whatever sequence of calls of the order tools [add_to_order],
    [remove_from_order], [cancel_order] and [get_order_status] is made on the
    initially empty order store, for whatever customers, no order ever holds
    two lines with the same item (up to case) and the same size. *)
Theorem order_lines_stay_distinct rs :
  all_distinct (handle_all rs ∅).
Proof.
  assert (∀ st, all_distinct st → all_distinct (handle_all rs st)) as H.
  { induction rs as [|r rs IH]; intros st Hst; [done|].
    simpl. apply IH. destruct r; simpl.
    - by apply addToOrder_keeps_lines_distinct.
    - by apply removeFromOrder_keeps_lines_distinct.
    - by apply cancelOrder_keeps_lines_distinct.
    - by rewrite getOrderStatus_state. }
  apply H. intros c l Hc. by rewrite lookup_empty in Hc.
Qed.

Lemma addToOrder_append item_ quantity_ size_ customerId orderState :
  Forall (λ i, ¬ same_line item_ size_ i) (items_of customerId orderState) →
  (addToOrder item_ quantity_ size_ customerId orderState).2
  = <[default "default" customerId :=
        items_of customerId orderState ++ [mkLine item_ quantity_ size_]]> orderState.
Proof.
  intros Hnone. rewrite addToOrder_state. simpl. unfold items_of in *.
  by rewrite findIndex_none by (by apply not_same_line_test).
Qed.

Lemma removeFromOrder_first item_ customerId orderState l1 x l2 :
  orderState !! default "default" customerId = Some (l1 ++ x :: l2) →
  eq_ignore_case (item x) item_ →
  Forall (λ i, ¬ eq_ignore_case (item i) item_) l1 →
  (removeFromOrder item_ customerId orderState).2
  = <[default "default" customerId := l1 ++ l2]> orderState.
Proof.
  intros E Hx Hl1. unfold removeFromOrder. rewrite E.
  assert (findIndex (λ i, bool_decide (toLowerCase (item i) = toLowerCase item_))
            (l1 ++ x :: l2) = Z.of_nat (length l1)) as Hk.
  { apply findIndex_first; [by apply not_eq_ignore_case_test|].
    by apply bool_decide_eq_true. }
  destruct (l1 ++ x :: l2) as [|y l] eqn:El; [by destruct l1|].
  rewrite Hk.
  replace (0 <=? Z.of_nat (length l1)) with true by (symmetry; apply Z.leb_le; lia).
  rewrite Nat2Z.id, <- El, lookup_app_r, Nat.sub_diag by lia. simpl.
  by rewrite delete_middle.
Qed.

Lemma items_of_insert customerId l (orderState : gmap string (list OrderLine)) :
  items_of customerId (<[default "default" customerId := l]> orderState) = l.
Proof. unfold items_of. by rewrite lookup_insert_eq. Qed.

(** X4. Adding an item that the customer's order does not hold yet (in any
    size, up to case) and removing it again leaves the lines of the order as
    they were. *)
Theorem addToOrder_then_removeFromOrder item_ quantity_ size_ customerId orderState :
  Forall (λ i, ¬ eq_ignore_case (item i) item_) (items_of customerId orderState) →
  (removeFromOrder item_ customerId
     (addToOrder item_ quantity_ size_ customerId orderState).2).2
  = <[default "default" customerId := items_of customerId orderState]> orderState.
Proof.
  intros Hnone.
  rewrite addToOrder_append.
  - rewrite (removeFromOrder_first item_ customerId _ (items_of customerId orderState)
               (mkLine item_ quantity_ size_) []); try done.
    + by rewrite insert_insert_eq, app_nil_r.
    + by rewrite lookup_insert_eq.
  - eapply Forall_impl; [exact Hnone|]. by intros i Hi [? _].
Qed.

(** X5. After [cancelOrder] the customer has nothing ordered: the status
    tool answers that the order is empty, and the next [addToOrder] starts an
    order of that single line; the orders of the other customers are
    untouched by the cancellation. *)
Theorem cancelOrder_clears_the_order reason customerId orderState :
  let cancelled := (cancelOrder reason customerId orderState).2 in
  items_of customerId cancelled = []
  ∧ (getOrderStatus customerId cancelled).1
    = "You don't have any items in your order yet. What would you like to order?"
  ∧ (∀ item_ quantity_ size_,
       items_of customerId (addToOrder item_ quantity_ size_ customerId cancelled).2
       = [mkLine item_ quantity_ size_])
  ∧ (∀ other, other ≠ default "default" customerId →
       cancelled !! other = orderState !! other).
Proof.
  intros cancelled.
  assert (items_of customerId cancelled = []) as Hempty.
  { unfold cancelled, items_of. rewrite cancelOrder_state.
    destruct (orderState !! _) as [[|y l]|] eqn:E; rewrite ?E, ?lookup_delete_eq; done. }
  split; [done|]. split; [|split].
  - unfold getOrderStatus. unfold items_of in Hempty.
    destruct (cancelled !! _) as [[|y l]|]; done.
  - intros item_ quantity_ size_. rewrite addToOrder_append.
    + by rewrite items_of_insert, Hempty.
    + rewrite Hempty. constructor.
  - intros other Hother. unfold cancelled. rewrite cancelOrder_state.
    destruct (orderState !! default "default" customerId) as [[|y l]|]; try done.
    by rewrite lookup_delete_ne.
Qed.

End OrderTools.

(** ** The producer of the Transcription Stage *)

Section TranscriptionProducer.
Import Transcription.

Lemma forward_spec rejects audioStream calls :
  for_of audioStream (stt_sendAudio rejects) calls
    = (Ok tt, calls ++ (SendAudio <$> audioStream))
  ∨ ∃ sent chunk rest e,
      audioStream = sent ++ chunk :: rest
      ∧ rejects (calls ++ (SendAudio <$> sent)) chunk = Some e
      ∧ for_of audioStream (stt_sendAudio rejects) calls
        = (Threw e, calls ++ (SendAudio <$> sent ++ [chunk])).
Proof.
  revert calls. induction audioStream as [|c l IH]; intros calls.
  - left. simpl. by rewrite app_nil_r.
  - cbn [for_of]. unfold bind.
    change (stt_sendAudio rejects c calls)
      with (match rejects calls c with Some e => Threw e | None => Ok tt end,
            calls ++ [SendAudio c]).
    destruct (rejects calls c) as [e|] eqn:R.
    + right. exists [], c, l, e. rewrite fmap_nil, app_nil_r. by repeat split.
    + destruct (IH (calls ++ [SendAudio c]))
        as [E|(sent & chunk & rest & e & -> & Hr & E)]; rewrite E.
      * left. by rewrite fmap_cons, <- app_assoc.
      * right. exists (c :: sent), chunk, rest, e.
        split; [done|]. split.
        -- rewrite <- Hr. f_equal. by rewrite fmap_cons, <- app_assoc.
        -- change ((c :: sent) ++ [chunk]) with (c :: (sent ++ [chunk])).
           by rewrite fmap_cons, <- app_assoc.
Qed.

(** X7. The producer of [sttStream] forwards the audio chunks to the
    recognizer in order. If a send throws, no later chunk is sent and the
    error leaves the producer. In both cases the recognizer's [close] is
    called exactly once, as the last call. *)
Theorem stt_producer_closes_once rejects audioStream :
  producer rejects audioStream []
    = (Ok tt, (SendAudio <$> audioStream) ++ [Close])
  ∨ ∃ sent chunk rest e,
      audioStream = sent ++ chunk :: rest
      ∧ rejects (SendAudio <$> sent) chunk = Some e
      ∧ producer rejects audioStream []
        = (Threw e, (SendAudio <$> sent ++ [chunk]) ++ [Close]).
Proof.
  unfold producer, try_finally, stt_close.
  destruct (forward_spec rejects audioStream [])
    as [E|(sent & chunk & rest & e & Hl & Hr & E)]; rewrite E.
  - by left.
  - right. by exists sent, chunk, rest, e.
Qed.

End TranscriptionProducer.

(** ** More on the producer of the Synthesis Stage *)

Section SynthesisProducer.
Import Synthesis Props.

Lemma producer_loop_calls l buffer w :
  ∃ buffer' w' texts,
    producer_loop l buffer w = (Ok buffer', w')
    ∧ tts_calls w' = tts_calls w ++ (SendText <$> texts).
Proof.
  revert buffer w. induction l as [|e l IH]; intros buffer w.
  - exists buffer, w, []. by rewrite app_nil_r.
  - simpl. unfold mbind at 1, M_bind, bind.
    destruct e;
      (unfold on_event, mbind, M_bind, mret, M_ret, bind, ret, passthrough_push,
         tts_sendText; simpl);
      match goal with
      | |- context [producer_loop l ?b ?w1] =>
          destruct (IH b w1) as (b' & w' & texts & E & C); rewrite E
      end;
      try (exists b', w', texts; split; [done|]; by rewrite C).
    exists b', w', (join buffer :: texts). split; [done|].
    rewrite C. simpl. by rewrite <- app_assoc.
Qed.


(** X9. Response chunks that arrive after the last turn end are never sent:
    when the input stops without a turn end, the text buffered for the
    unfinished turn is dropped. *)
Theorem unfinished_turn_is_not_sent eventStream seg :
  Forall (λ e, is_agent_end e = false) seg →
  sent_texts (snd (producer (eventStream ++ seg) init))
  = sent_texts (snd (producer eventStream init)).
Proof.
  intros Hseg. unfold producer, try_finally, mbind, M_bind, bind.
  rewrite producer_loop_app.
  destruct (producer_loop_spec eventStream [] init) as (b & w & more & E & _).
  rewrite E, producer_loop_segment by done. done.
Qed.

End SynthesisProducer.

(** ** More on the Agent Stage *)

Section AgentStageMore.
Context (env : Env).
Import Agent Props.

Ltac run_agent :=
  unfold mbind, M_bind, mret, M_ret, bind, ret, Date_now, yield, uuidv4; simpl.

(** X10. On an input without final transcripts the Agent Stage is the
    identity: it yields its input as it is, never reads the clock and never
    calls the agent. *)
Theorem agentStream_passthrough eventStream :
  Forall (λ e, is_stt_output e = false) eventStream →
  agentStream env eventStream init = (Ok tt, mkWorld eventStream 1 0 []).
Proof.
  intros Hin. unfold agentStream, mbind, M_bind, bind, uuidv4. simpl.
  assert (∀ w, for_of eventStream (on_event env) w
               = (Ok tt, mkWorld (yielded w ++ eventStream) (uuid_calls w)
                           (clock_reads w) (agent_calls w))) as H.
  { induction Hin as [|e l He _ IH]; intros w; simpl.
    - rewrite app_nil_r. by destruct w.
    - unfold bind. rewrite on_event_other by done. rewrite IH. simpl.
      by rewrite <- app_assoc. }
  by rewrite H.
Qed.

(** X11. The agent collaborator is called exactly once for each final
    transcript that the stage receives and that is not a greeting, in the
    order of the input, with that transcript as the only message; no other
    event causes a call, and no call is made for what follows the event at
    which the stage throws. *)
Theorem agent_called_once_per_turn eventStream :
  agent_calls_on env eventStream
  = turn_call <$> agent_transcripts (received env eventStream).
Proof.
  unfold agent_calls_on, received, agentStream, mbind, M_bind, bind, uuidv4.
  cbn [snd]. set (w0 := mkWorld _ _ _ _).
  assert (∀ w, agent_calls (snd (for_of eventStream (on_event env) w))
               = agent_calls w
                 ++ (turn_call <$> agent_transcripts (received_from env eventStream w)))
    as H.
  { induction eventStream as [|e l IH]; intros w.
    - cbn. by rewrite app_nil_r.
    - cbn [for_of received_from]. unfold bind. destruct (is_stt_output e) eqn:He.
      + destruct e; try discriminate He. rewrite on_event_stt_output.
        set (w1 := mkWorld _ _ _ _).
        assert (agent_transcripts [stt_output transcript ts]
                = if greetingPattern_test (trim transcript) then [] else [transcript])
          as Ht.
        { unfold agent_transcripts. simpl.
          by destruct (greetingPattern_test (trim transcript)). }
        change (stt_output transcript ts :: ?l) with ([stt_output transcript ts] ++ l).
        unfold agent_transcripts in *. rewrite omap_app, Ht, fmap_app.
        destruct (on_stt_output_turn env transcript w1)
          as (new & w2 & _ & A & [(te & E & _)|(E & _)]); rewrite E; cbn [snd].
        * rewrite IH, A, app_assoc. f_equal.
          destruct (greetingPattern_test (trim transcript)); cbn;
            by rewrite ?app_nil_r.
        * rewrite A.
          destruct (greetingPattern_test (trim transcript)); cbn;
            by rewrite ?app_nil_r.
      + rewrite (on_event_other env) by done. rewrite IH. cbn [agent_calls].
        f_equal. unfold agent_transcripts. by destruct e. }
  rewrite (surjective_pairing (for_of eventStream (on_event env) w0)) at 1.
  destruct (for_of eventStream (on_event env) w0).1; cbn [snd]; by rewrite H.
Qed.

Lemma chunk_texts_app l1 l2 : chunk_texts (l1 ++ l2) = chunk_texts l1 ++ chunk_texts l2.
Proof. apply omap_app. Qed.

Lemma emits_with_ret : emits_with env [] (mret tt).
Proof.
  intros w. exists [], w. rewrite app_nil_r. simpl.
  repeat split; try done; lia.
Qed.

Lemma emits_with_bind a b (m : M World unit) (k : unit → M World unit) :
  emits_with env a m → (∀ u, emits_with env b (k u)) →
  emits_with env (a ++ b) (m ≫= k).
Proof.
  intros Hm Hk w.
  destruct (Hm w) as (n1 & w1 & E1 & Y1 & A1 & Q1 & T1 & C1 & S1).
  destruct (Hk tt w1) as (n2 & w2 & E2 & Y2 & A2 & Q2 & T2 & C2 & S2).
  exists (n1 ++ n2), w2. unfold mbind, M_bind, bind. rewrite E1.
  split; [exact E2|]. split; [by rewrite Y2, Y1, app_assoc|].
  split; [congruence|]. split; [by apply Forall_app|].
  split; [by rewrite chunk_texts_app, T1, T2|].
  split; [rewrite C2, C1, length_app; lia|].
  rewrite fmap_app, S1, S2, C1, length_app, seq_app, fmap_app. done.
Qed.

Lemma emits_with_for_of {A} (f : A → list string) (l : list A)
    (body : A → M World unit) :
  (∀ x, emits_with env (f x) (body x)) →
  emits_with env (concat (f <$> l)) (for_of l body).
Proof.
  intros Hb. induction l as [|x l IH]; simpl.
  - apply emits_with_ret.
  - by apply (emits_with_bind (f x) _ (body x) (λ _, for_of l body)).
Qed.

Lemma emits_with_now_yield texts (f : Z → VoiceAgentEvent) :
  (∀ ts, quiet (f ts) ∧ chunk_texts [f ts] = texts ∧ event_ts (f ts) = ts) →
  emits_with env texts (ts ← Date_now env; yield (f ts)).
Proof.
  intros Hf w. destruct (Hf (now_of env (clock_reads w))) as (Q & T & S).
  eexists [_], _. run_agent. split; [done|]. split; [done|]. split; [done|].
  split; [by constructor|]. split; [exact T|]. split; [simpl; lia|].
  cbn. by rewrite S.
Qed.

Lemma emits_with_emit_tool_call tc : emits_with env [] (emit_tool_call env tc).
Proof.
  intros w. unfold emit_tool_call. destruct (tc_id tc); run_agent;
    eexists [_], _; (split; [done|]); (split; [done|]); (split; [done|]);
    (split; [by repeat constructor|]); (split; [done|]); (split; [simpl; lia|]); done.
Qed.

Lemma concat_nils {A B} (l : list A) : concat ((λ _, @nil B) <$> l) = [].
Proof. induction l as [|x l IH]; [done|]. cbn. exact IH. Qed.

Lemma emits_with_on_message m : emits_with env (message_chunks m) (on_message env m).
Proof.
  destruct m as [text tcs| cid name content |]; simpl.
  - rewrite <- (app_nil_r (if truthy text then [text] else [])).
    apply emits_with_bind.
    + destruct (truthy text); [|apply emits_with_ret].
      apply emits_with_now_yield. by intros.
    + intros _. destruct tcs as [calls|]; [|apply emits_with_ret].
      rewrite <- (concat_nils calls).
      apply emits_with_for_of, emits_with_emit_tool_call.
  - apply emits_with_now_yield. by intros.
  - apply emits_with_ret.
Qed.

(** A turn that goes to the agent, in full: its events, the response
    texts among them, the call and the clock readings. *)
Lemma on_stt_output_agent_full transcript w :
  greetingPattern_test (trim transcript) = false →
  let run := agent_of env (agent_calls w) (turn_call transcript) in
  ∃ new w2,
    Forall quiet new
    ∧ chunk_texts new = concat (message_chunks <$> run_messages run)
    ∧ yielded w2 = yielded w ++ new
    ∧ agent_calls w2 = agent_calls w ++ [turn_call transcript]
    ∧ clock_reads w2 = (clock_reads w + length new)%nat
    ∧ event_ts <$> new = now_of env <$> seq (clock_reads w) (length new)
    ∧ on_stt_output env transcript w =
        let ended :=
          mkWorld (yielded w2 ++ [agent_end (now_of env (clock_reads w2))])
            (uuid_calls w2) (S (clock_reads w2)) (agent_calls w2) in
        match run_error run with
        | Some e =>
            match error_json e with
            | Some _ => (Ok tt, ended)
            | None => (Threw TypeError, w2)
            end
        | None => (Ok tt, ended)
        end.
Proof.
  intros G run. unfold on_stt_output. rewrite G.
  unfold try_catch, mbind at 1, M_bind, bind, agent_stream.
  fold (turn_call transcript). fold run.
  set (w1 := mkWorld _ _ _ _).
  destruct (emits_with_for_of message_chunks (run_messages run) _
              emits_with_on_message w1)
    as (new & w2 & E & Y & A & Q & T & C & S).
  exists new, w2. split; [exact Q|]. split; [exact T|]. split; [exact Y|].
  split; [exact A|]. split; [exact C|]. split; [exact S|].
  unfold mbind at 1, M_bind, bind. unfold for_await_stream.
  unfold mbind at 1, M_bind, bind. rewrite E.
  destruct (run_error run) as [e|]; [|reflexivity].
  unfold throw, mbind at 1, M_bind, bind, JSON_stringify.
  by destruct (error_json e).
Qed.

(** One turn in full; it ends with a turn end unless the failure of the run
    is not rendered. *)
Lemma on_stt_output_full transcript w :
  let run := agent_of env (agent_calls w) (turn_call transcript) in
  ∃ new w' r,
    on_stt_output env transcript w = (r, w')
    ∧ Forall quiet new
    ∧ chunk_texts new =
        (if greetingPattern_test (trim transcript) then [GREETING]
         else concat (message_chunks <$> run_messages run))
    ∧ agent_calls w' =
        (if greetingPattern_test (trim transcript) then agent_calls w
         else agent_calls w ++ [turn_call transcript])
    ∧ event_ts <$> turn_events env transcript w
      = now_of env <$> seq (clock_reads w) (length (turn_events env transcript w))
    ∧ match r with
      | Ok _ => ∃ ts_end, yielded w' = yielded w ++ new ++ [agent_end ts_end]
      | Threw _ => ¬ failure_rendered run
      end.
Proof.
  intros run. unfold turn_events.
  destruct (greetingPattern_test (trim transcript)) eqn:G.
  - rewrite on_stt_output_greeting by done.
    exists [agent_chunk GREETING (now_of env (clock_reads w))]. eexists _, _.
    split; [reflexivity|]. split; [by repeat constructor|]. split; [done|].
    split; [done|]. cbn [snd yielded]. rewrite drop_app_length.
    split; [done|]. by eexists.
  - destruct (on_stt_output_agent_full transcript w G)
      as (new & w2 & Q & T & Y & A & C & S & E).
    fold run in T, E. rewrite E. clear E.
    assert (event_ts <$> (new ++ [agent_end (now_of env (clock_reads w2))])
            = now_of env <$> seq (clock_reads w)
                (length (new ++ [agent_end (now_of env (clock_reads w2))]))) as Hts.
    { rewrite fmap_app, S, length_app, seq_app, fmap_app, C. done. }
    assert (∀ e, run_error run = Some e → error_json e = None →
                 ¬ failure_rendered run) as Hnot.
    { intros e He Hj Hr. destruct (Hr e He) as [text Ht]. congruence. }
    destruct (run_error run) as [e|] eqn:He; [destruct (error_json e) eqn:Hj|];
      exists new; eexists _, _; (split; [reflexivity|]);
      cbn [snd yielded agent_calls]; rewrite Y, <- ?app_assoc, drop_app_length;
      (split; [done|]); (split; [done|]); (split; [done|]).
    + split; [exact Hts|]. by eexists.
    + split; [exact S|]. by apply (Hnot e).
    + split; [exact Hts|]. by eexists.
Qed.

(** X12. Every event that the Agent Stage adds in a turn carries its own
    reading of the clock, taken in the order of emission: the timestamps of
    the events of a turn are the successive values of [Date.now], so that
    they do not decrease when the clock does not. *)
Theorem turn_timestamps_follow_the_clock transcript w :
  event_ts <$> turn_events env transcript w
  = now_of env <$> seq (clock_reads w) (length (turn_events env transcript w)).
Proof.
  by destruct (on_stt_output_full transcript w) as (? & ? & ? & _ & _ & _ & _ & S & _).
Qed.

End AgentStageMore.

(** ** From the transcripts to the synthesizer *)

Section Pipeline.
Context (env : Env).
Import Props.

Lemma concatenation_chunks msgs :
  concatenation (concat (message_chunks <$> msgs)) = concatenation (ai_texts msgs).
Proof.
  induction msgs as [|m msgs IH]; [done|].
  change (concat (message_chunks <$> m :: msgs))
    with (message_chunks m ++ concat (message_chunks <$> msgs)).
  assert (ai_texts (m :: msgs)
          = match m with AIMessage text _ => [text] | _ => [] end ++ ai_texts msgs)
    as -> by (by destruct m).
  destruct m as [text tcs| |]; simpl; try exact IH.
  destruct text; simpl; [exact IH|].
  unfold concatenation in *. simpl. by rewrite IH.
Qed.

Lemma pipeline_loop l :
  errors_rendered env →
  Forall is_transcript l →
  ∀ wA, ∃ out wA',
    for_of l (Agent.on_event env) wA = (Ok tt, wA')
    ∧ Agent.yielded wA' = Agent.yielded wA ++ out
    ∧ ∀ wS, ∃ wS',
        Synthesis.producer_loop out [] wS = (Ok [], wS')
        ∧ Synthesis.sent_texts wS'
          = Synthesis.sent_texts wS ++ spoken env (Agent.agent_calls wA) l.
Proof.
  intros Hr. induction 1 as [|e l He _ IH]; intros wA.
  - exists [], wA. rewrite app_nil_r. split; [done|]. split; [done|].
    intros wS. exists wS. by rewrite app_nil_r.
  - destruct e; try done.
    + (* a partial transcript *)
      cbn [for_of]. unfold bind. rewrite (on_event_other env) by done.
      set (w1 := Agent.mkWorld _ _ _ _).
      destruct (IH w1) as (out & wA' & E & Y & HS).
      exists (stt_chunk transcript ts :: out), wA'. rewrite E.
      split; [done|]. split; [rewrite Y; simpl; by rewrite <- app_assoc|].
      intros wS.
      set (wS1 := Synthesis.mkWorld
                    (EventQueue.mk (EventQueue.items (Synthesis.passthrough wS)
                                      ++ [stt_chunk transcript ts])
                                   (EventQueue.cancelled (Synthesis.passthrough wS)))
                    (Synthesis.tts_calls wS)).
      destruct (HS wS1) as (wS' & ES & TS). exists wS'.
      split; [exact ES|]. rewrite TS. done.
    + (* a final transcript *)
      cbn [for_of]. unfold bind at 1. rewrite on_event_stt_output.
      set (w0 := Agent.mkWorld _ _ _ _).
      destruct (on_stt_output_full env transcript w0)
        as (new & w1 & r & E1 & Q & T & A & _ & Hend).
      destruct r as [[]|err]; [|by destruct (Hend (Hr _ _))].
      destruct Hend as [te Y1].
      rewrite E1. destruct (IH w1) as (out & wA' & E & Y & HS).
      exists ((stt_output transcript ts :: new) ++ [agent_end te] ++ out), wA'.
      rewrite E. split; [done|].
      split; [rewrite Y, Y1; simpl; by rewrite <- !app_assoc|].
      intros wS.
      assert (Forall (λ e, is_agent_end e = false) (stt_output transcript ts :: new))
        as Hseg.
      { constructor; [done|]. eapply Forall_impl; [exact Q|]. by intros e [? _]. }
      rewrite producer_loop_app, producer_loop_segment by done.
      rewrite producer_loop_app, producer_loop_turn_end.
      set (wS1 := Synthesis.mkWorld _ _).
      destruct (HS wS1) as (wS' & ES & TS). exists wS'.
      split; [exact ES|]. rewrite TS, A.
      unfold Synthesis.sent_texts, wS1. simpl. rewrite omap_app. simpl.
      rewrite <- app_assoc. f_equal. rewrite T, join_concatenation.
      change (Agent.agent_calls w0) with (Agent.agent_calls wA).
      destruct (Agent.greetingPattern_test (trim transcript)); simpl.
      * by rewrite append_empty_r.
      * by rewrite concatenation_chunks.
Qed.

(** X13. On an input of partial and final transcripts, with an agent whose
    failures [JSON.stringify] renders and a synthesizer that accepts every
    text, the texts that the Synthesis Stage sends to the synthesizer from
    the output of the Agent Stage are, one per final transcript and in order:
    the fixed greeting for a greeting, and otherwise the concatenation of the
    texts of the assistant messages that the agent's run yielded (up to its
    end or its failure); tool calls, tool results and partial transcripts add
    nothing. *)
Theorem pipeline_speaks_the_agent_texts eventStream :
  errors_rendered env →
  Forall is_transcript eventStream →
  Synthesis.sent_texts
    (snd (Synthesis.producer (Agent.output env eventStream) Synthesis.init))
  = spoken env [] eventStream.
Proof.
  intros Hr Hin. unfold Agent.output, Agent.agentStream, mbind, M_bind, bind,
    Agent.uuidv4.
  set (w0 := Agent.mkWorld _ _ _ _).
  destruct (pipeline_loop eventStream Hr Hin w0) as (out & wA' & E & Y & HS).
  rewrite E. simpl. rewrite Y. simpl.
  destruct (HS Synthesis.init) as (wS' & ES & TS).
  unfold Synthesis.producer, try_finally, mbind, M_bind, bind. rewrite ES. simpl.
  unfold Synthesis.sent_texts in *. simpl. rewrite omap_app, TS. simpl.
  by rewrite app_nil_r.
Qed.

End Pipeline.

(** ** White space, letter case and the fast path for greetings *)

Section FastPath.
Import RegExp Props.

Lemma trimStart_list_ws p l :
  Forall (λ c, isWhiteSpace c = true) p → trimStart_list (p ++ l) = trimStart_list l.
Proof. induction 1 as [|c p Hc _ IH]; [done|]. simpl. by rewrite Hc. Qed.

Lemma trimStart_list_all_ws p : Forall (λ c, isWhiteSpace c = true) p → trimStart_list p = [].
Proof. intros H. rewrite <- (app_nil_r p). by rewrite trimStart_list_ws. Qed.

Lemma trimStart_list_split l :
  ∃ p, Forall (λ c, isWhiteSpace c = true) p ∧ l = p ++ trimStart_list l.
Proof.
  induction l as [|c l (p & Hp & IH)].
  - by exists [].
  - simpl. destruct (isWhiteSpace c) eqn:Hc.
    + exists (c :: p). split; [by constructor|]. simpl. by rewrite <- IH.
    + by exists [].
Qed.

Lemma trimStart_list_app l p :
  Forall (λ c, isWhiteSpace c = true) p →
  trimStart_list (l ++ p)
  = match trimStart_list l with [] => [] | _ :: _ => trimStart_list l ++ p end.
Proof.
  intros Hp. induction l as [|c l IH]; simpl.
  - by apply trimStart_list_all_ws.
  - by destruct (isWhiteSpace c).
Qed.

Lemma Forall_rev_ws p : Forall (λ c, isWhiteSpace c = true) p → Forall (λ c, isWhiteSpace c = true) (rev p).
Proof.
  intros H. apply Forall_forall. intros c Hc.
  apply list_elem_of_In, in_rev, list_elem_of_In in Hc.
  by apply (proj1 (Forall_forall _ _) H).
Qed.

(** What [trim] removes is white space at both ends. *)
Lemma trim_list_split l :
  ∃ p1 p2, Forall (λ c, isWhiteSpace c = true) p1 ∧ Forall (λ c, isWhiteSpace c = true) p2 ∧ l = p1 ++ trim_list l ++ p2.
Proof.
  destruct (trimStart_list_split l) as (p1 & H1 & E1).
  destruct (trimStart_list_split (rev (trimStart_list l))) as (p2 & H2 & E2).
  exists p1, (rev p2). split; [done|]. split; [by apply Forall_rev_ws|].
  unfold trim_list. rewrite <- rev_app_distr, <- E2, rev_involutive. exact E1.
Qed.

(** White space around a string does not change what [trim] returns. *)
Lemma trim_list_padded p1 l p2 :
  Forall (λ c, isWhiteSpace c = true) p1 → Forall (λ c, isWhiteSpace c = true) p2 → trim_list (p1 ++ l ++ p2) = trim_list l.
Proof.
  intros H1 H2. unfold trim_list.
  rewrite trimStart_list_ws, trimStart_list_app by done.
  destruct (trimStart_list l) as [|c m] eqn:E; [done|].
  rewrite rev_app_distr, trimStart_list_ws; [done|]. by apply Forall_rev_ws.
Qed.

Lemma isWhiteSpace_canonicalize c :
  isWhiteSpace (canonicalize c) = isWhiteSpace c.
Proof. by destruct c as [[] [] [] [] [] [] [] []]. Qed.

Lemma trimStart_list_canonicalize l :
  trimStart_list (canonicalize <$> l) = canonicalize <$> trimStart_list l.
Proof.
  induction l as [|c l IH]; [done|].
  rewrite fmap_cons. simpl. rewrite isWhiteSpace_canonicalize.
  by destruct (isWhiteSpace c).
Qed.

Lemma rev_fmap {A B} (f : A → B) l : rev (f <$> l) = f <$> rev l.
Proof.
  induction l as [|x l IH]; [done|].
  rewrite fmap_cons. simpl. by rewrite IH, fmap_app.
Qed.

Lemma trim_list_canonicalize l :
  trim_list (canonicalize <$> l) = canonicalize <$> trim_list l.
Proof.
  unfold trim_list.
  by rewrite trimStart_list_canonicalize, rev_fmap, trimStart_list_canonicalize,
    rev_fmap.
Qed.

Lemma list_ascii_of_string_app a b :
  list_ascii_of_string (a +:+ b) = list_ascii_of_string a ++ list_ascii_of_string b.
Proof.
  induction a as [|c a IH]; [done|].
  change (String c a +:+ b) with (String c (a +:+ b)). simpl. by rewrite IH.
Qed.

Lemma list_ascii_of_string_inj a b :
  list_ascii_of_string a = list_ascii_of_string b → a = b.
Proof.
  intros H. rewrite <- (string_of_list_ascii_of_string a),
    <- (string_of_list_ascii_of_string b). by rewrite H.
Qed.

(** A greeting has no white space at its ends. *)
Lemma is_greeting_trim s : is_greeting s → is_greeting (trim s).
Proof.
  intros (g & dot & Hg & Hdot & E). exists g, dot. split; [done|]. split; [done|].
  unfold trim. rewrite list_ascii_of_string_of_list_ascii.
  rewrite <- trim_list_canonicalize, E, trim_list_canonicalize. f_equal.
  unfold greetings in Hg.
  repeat (apply elem_of_cons in Hg as [->|Hg]; [by destruct Hdot as [-> | ->]|]).
  by apply elem_of_nil in Hg.
Qed.

(** X14. The Agent Stage takes the fast path, that is
    [greetingPattern.test(transcript.trim())] holds, exactly for the
    transcripts made of one of the six greetings, in any letter case,
    optionally followed by a full stop, with any white space before and
    after; anything else inside the transcript sends the turn to the agent. *)
Theorem fast_path_iff transcript :
  Agent.greetingPattern_test (trim transcript) = true ↔
  ∃ before s after,
    transcript = before +:+ s +:+ after
    ∧ all_white_space before ∧ all_white_space after ∧ is_greeting s.
Proof.
  rewrite greetingPattern_test_spec. split.
  - intros Hg.
    destruct (trim_list_split (list_ascii_of_string transcript))
      as (p1 & p2 & H1 & H2 & E).
    exists (string_of_list_ascii p1), (trim transcript), (string_of_list_ascii p2).
    unfold all_white_space. rewrite !list_ascii_of_string_of_list_ascii.
    split; [|done]. apply list_ascii_of_string_inj.
    rewrite !list_ascii_of_string_app, !list_ascii_of_string_of_list_ascii.
    unfold trim. by rewrite list_ascii_of_string_of_list_ascii.
  - intros (before & s & after & -> & H1 & H2 & Hs).
    apply is_greeting_trim in Hs.
    replace (trim (before +:+ s +:+ after)) with (trim s); [done|].
    unfold trim. f_equal.
    rewrite !list_ascii_of_string_app. by rewrite trim_list_padded.
Qed.

End FastPath.

(** ** Routing by keywords *)

Section Routing.
Import Subagents Props.

Lemma startsWith_list_iff k s :
  startsWith_list k s = true ↔ ∃ post, s = k ++ post.
Proof.
  revert s. induction k as [|c k IH]; intros s; simpl.
  - split; [by exists s|done].
  - destruct s as [|d s].
    + split; [done|]. by intros (post & ?).
    + rewrite andb_true_iff, bool_decide_eq_true, IH. split.
      * intros (-> & post & ->). by exists post.
      * intros (post & [= -> ->]). split; [done|]. by exists post.
Qed.

Lemma includes_list_iff s k :
  includes_list s k = true ↔ ∃ pre post, s = pre ++ k ++ post.
Proof.
  induction s as [|d s IH]; simpl.
  - rewrite orb_false_r, startsWith_list_iff. split.
    + intros (post & ->). by exists [], post.
    + intros (pre & post & E). symmetry in E.
      apply app_eq_nil in E as [-> E]. apply app_eq_nil in E as [-> ->].
      by exists [].
  - rewrite orb_true_iff, startsWith_list_iff, IH. split.
    + intros [(post & E)|(pre & post & ->)].
      * by exists [], post.
      * by exists (d :: pre), post.
    + intros (pre & post & E). destruct pre as [|d' pre].
      * left. by exists post.
      * right. injection E as -> ->. by exists pre, post.
Qed.

(** A string that includes a keyword includes the end of that keyword. *)
Lemma includes_end s a b :
  includes s (a +:+ b) = true → includes s b = true.
Proof.
  unfold includes. rewrite list_ascii_of_string_app, !includes_list_iff.
  intros (pre & post & ->).
  exists (pre ++ list_ascii_of_string a), post. by rewrite <- !app_assoc.
Qed.

Lemma score_cons kw keywords lowerTask :
  score (kw :: keywords) lowerTask
  = ((if includes lowerTask kw then 1 else 0) + score keywords lowerTask)%nat.
Proof. unfold score. simpl. by destruct (includes lowerTask kw). Qed.

Lemma score_positive kw keywords lowerTask :
  kw ∈ keywords → includes lowerTask kw = true → (1 ≤ score keywords lowerTask)%nat.
Proof.
  intros Hin Hkw. induction Hin as [kw l|kw kw' l _ IH]; rewrite score_cons.
  - rewrite Hkw. lia.
  - specialize (IH Hkw). lia.
Qed.

Lemma score_zero keywords lowerTask :
  Forall (λ kw, includes lowerTask kw = false) keywords →
  score keywords lowerTask = 0%nat.
Proof.
  induction 1 as [|kw l Hkw _ IH]; [done|]. by rewrite score_cons, Hkw, IH.
Qed.

(** X15. [classifyTask] answers ORDER only for a task that holds, in any
    letter case, an order keyword other than "i'll have": that keyword always
    comes with the service keyword "have", which cancels it. And it answers
    CUSTOMER_SERVICE only for a task that holds a service keyword. *)
Theorem classifyTask_needs_keyword task :
  (classifyTask task = ORDER →
   ∃ kw, kw ∈ orderKeywords ∧ kw ≠ "i'll have"
         ∧ includes (toLowerCase task) kw = true)
  ∧ (classifyTask task = CUSTOMER_SERVICE →
     ∃ kw, kw ∈ serviceKeywords ∧ includes (toLowerCase task) kw = true).
Proof.
  unfold classifyTask. set (lt := toLowerCase task).
  set (sS := score serviceKeywords lt). split.
  - intros H.
    assert (includes lt "i'll have" = true → (1 ≤ sS)%nat) as Hhave.
    { intros Hi. apply (score_positive "have");
        [unfold serviceKeywords; repeat constructor|].
      by apply (includes_end lt "i'll " "have"). }
    unfold orderKeywords in *. rewrite !score_cons in H.
    repeat match type of H with
    | context [includes lt ?kw] =>
        lazymatch kw with
        | "i'll have" => fail
        | _ => destruct (includes lt kw) eqn:?;
                 [exists kw; split; [repeat constructor|by split] | ]
        end
    end.
    change (score [] lt) with 0%nat in H.
    destruct (includes lt "i'll have"); simpl in H.
    + specialize (Hhave eq_refl).
      destruct (Nat.ltb_spec sS 1) as [?|_]; [lia|].
      by destruct (1 <? sS)%nat.
    + by destruct (0 <? sS)%nat.
  - intros H.
    destruct (decide (Forall (λ kw, includes lt kw = false) serviceKeywords))
      as [Hnone|Hsome].
    + unfold sS in H. rewrite (score_zero _ _ Hnone) in H. simpl in H.
      by destruct (score orderKeywords lt).
    + apply not_Forall_Exists in Hsome; [|apply _].
      apply Exists_exists in Hsome as (kw & Hin & Hkw).
      exists kw. split; [done|]. apply not_false_iff_true. exact Hkw.
Qed.

End Routing.

(** ** From the frames to the recognizer *)

Section IngressToRecognizer.
Import Transcription.

Lemma onMessage_items frames q :
  EventQueue.items (snd (for_of frames Ingress.onMessage q))
  = EventQueue.items q ++ omap Ingress.binary_payload frames.
Proof.
  revert q. induction frames as [|data frames IH]; intros q.
  - simpl. by rewrite app_nil_r.
  - cbn [for_of]. unfold bind.
    destruct data; simpl; rewrite IH; simpl; by rewrite <- ?app_assoc.
Qed.

(** X16. With a recognizer that accepts every chunk, what it receives over a
    session is one [sendAudio] for each [Buffer] or [ArrayBuffer] frame, with
    the bytes of the frame and in the order of arrival, and then [close];
    text frames never reach it. *)
Theorem recognizer_receives_binary_frames frames :
  producer (λ _ _, None)
    (EventQueue.items (snd (for_of frames Ingress.onMessage EventQueue.empty))) []
  = (Ok tt, (SendAudio <$> omap Ingress.binary_payload frames) ++ [Close]).
Proof.
  rewrite onMessage_items. simpl. unfold producer, try_finally, stt_close.
  destruct (forward_spec (λ _ _, None) (omap Ingress.binary_payload frames) [])
    as [E|(sent & chunk & rest & e & _ & Hr & _)]; [|done].
  by rewrite E.
Qed.

End IngressToRecognizer.

(** ** These properties at concrete inputs *)

(** ** The teardown of a session *)

Section Teardown.
Import Session.

Lemma push_all {A} (l : list A) q :
  for_of l EventQueue.push q
  = (Ok tt, EventQueue.mk (EventQueue.items q ++ l) (EventQueue.cancelled q)).
Proof.
  revert q. induction l as [|x l IH]; intros q.
  - simpl. rewrite app_nil_r. by destruct q.
  - cbn [for_of]. unfold bind. cbn. rewrite IH. cbn. by rewrite <- app_assoc.
Qed.

(** Closing the connection cancels the input channel. *)
Lemma inputStream_cancelled frames :
  EventQueue.cancelled (inputStream frames) = true.
Proof.
  assert (∀ q, fst (for_of frames Ingress.onMessage q) = Ok tt) as H.
  { induction frames as [|data frames IH]; intros q; [done|].
    cbn [for_of]. unfold bind. destruct data; cbn; apply IH. }
  unfold inputStream, mbind, M_bind, bind. specialize (H EventQueue.empty).
  by destruct (for_of frames Ingress.onMessage EventQueue.empty) as [[[]|e] q].
Qed.

Lemma stt_closes_app l1 l2 :
  stt_closes (l1 ++ l2) = (stt_closes l1 + stt_closes l2)%nat.
Proof. unfold stt_closes. by rewrite List.filter_app, length_app. Qed.

Lemma stt_closes_sendAudio l : stt_closes (Transcription.SendAudio <$> l) = 0%nat.
Proof. induction l as [|x l IH]; [done|]. exact IH. Qed.

Lemma tts_closes_app l1 l2 :
  tts_closes (l1 ++ l2) = (tts_closes l1 + tts_closes l2)%nat.
Proof. unfold tts_closes. by rewrite List.filter_app, length_app. Qed.

Lemma tts_closes_sendText l : tts_closes (Synthesis.SendText <$> l) = 0%nat.
Proof. induction l as [|x l IH]; [done|]. exact IH. Qed.

(** Over a stream that ends, the tasks are the runs on its items. *)
Lemma stt_producer_ended rejects audioStream calls :
  stt_producer rejects (mkStream audioStream Ended) calls
  = (match fst (Transcription.producer rejects audioStream calls) with
     | Ok _ => Returned
     | Threw e => Failed e
     end,
     snd (Transcription.producer rejects audioStream calls)).
Proof.
  unfold stt_producer, Transcription.producer, try_finally_task, try_finally,
    for_await, until_end. cbn [delivered ending at_end].
  by destruct (for_of audioStream _ calls) as [[[]|e] calls'].
Qed.

Lemma agentStream_ended env eventStream :
  agentStream env (mkStream eventStream Ended) Agent.init
  = (match fst (Agent.agentStream env eventStream Agent.init) with
     | Ok _ => Returned
     | Threw e => Failed e
     end,
     snd (Agent.agentStream env eventStream Agent.init)).
Proof.
  unfold agentStream, Agent.agentStream, for_await, until_end, mbind, M_bind, bind.
  cbn [delivered ending at_end Agent.uuidv4 snd].
  by destruct (for_of eventStream _ _) as [[[]|e] w].
Qed.

Lemma tts_producer_ended eventStream w :
  tts_producer (mkStream eventStream Ended) w
  = (Returned, snd (Synthesis.producer eventStream w)).
Proof.
  unfold tts_producer, Synthesis.producer, try_finally_task, try_finally, until_end,
    mbind, M_bind, bind. cbn [delivered ending at_end].
  destruct (producer_loop_calls eventStream [] w) as (b & w' & texts & E & _).
  by rewrite E.
Qed.

(** The recognizer is closed once, whatever it does with the chunks. *)
Lemma stt_closed_once c frames : stt_closes (stt_calls c frames) = 1%nat.
Proof.
  unfold stt_calls, stt_producer, try_finally_task, for_await, until_end, of_queue.
  rewrite inputStream_cancelled. cbn [delivered ending at_end].
  destruct (forward_spec (rejects c) (EventQueue.items (inputStream frames)) [])
    as [E|(sent & chunk & rest & e & _ & _ & E)]; rewrite E; cbn -[stt_closes];
    by rewrite stt_closes_app, stt_closes_sendAudio.
Qed.

(** No task cancels the passthrough queue of a stage. *)
Lemma sttStream_open sttEvents : ending (sttStream sttEvents) = Open.
Proof.
  unfold sttStream, stt_consumer, for_await, until_end. rewrite push_all.
  by destruct (at_end (ending sttEvents)).
Qed.

Lemma producer_loop_open l buffer w :
  EventQueue.cancelled (Synthesis.passthrough (snd (Synthesis.producer_loop l buffer w)))
  = EventQueue.cancelled (Synthesis.passthrough w).
Proof.
  revert buffer w. induction l as [|e l IH]; intros buffer w; [done|].
  cbn [Synthesis.producer_loop]. unfold mbind, M_bind, bind.
  assert (∃ b1 w1, Synthesis.on_event buffer e w = (Ok b1, w1)
            ∧ EventQueue.cancelled (Synthesis.passthrough w1)
              = EventQueue.cancelled (Synthesis.passthrough w)) as (b1 & w1 & E1 & H1).
  { destruct e;
      unfold Synthesis.on_event, mbind, M_bind, mret, M_ret, bind, ret,
        Synthesis.passthrough_push, Synthesis.tts_sendText; cbn;
      eexists _, _; (split; [reflexivity|reflexivity]). }
  rewrite E1, IH. exact H1.
Qed.

Lemma passthrough_push_all l w :
  for_of l Synthesis.passthrough_push w
  = (Ok tt,
     Synthesis.mkWorld
       (EventQueue.mk (EventQueue.items (Synthesis.passthrough w) ++ l)
          (EventQueue.cancelled (Synthesis.passthrough w)))
       (Synthesis.tts_calls w)).
Proof.
  revert w. induction l as [|x l IH]; intros w.
  - simpl. rewrite app_nil_r. by destruct w as [[]].
  - cbn [for_of]. unfold bind. cbn. rewrite IH. cbn. by rewrite <- app_assoc.
Qed.

Lemma ttsStream_open schedule eventStream audio :
  ending (ttsStream schedule eventStream audio) = Open.
Proof.
  unfold ttsStream, tts_consumer, for_await, until_end. cbn [ending].
  rewrite passthrough_push_all.
  assert (EventQueue.cancelled
            (Synthesis.passthrough (snd (tts_producer eventStream Synthesis.init)))
          = false) as H.
  { unfold tts_producer, try_finally_task, until_end.
    pose proof (producer_loop_open (delivered eventStream) [] Synthesis.init) as Hl.
    destruct (Synthesis.producer_loop (delivered eventStream) [] Synthesis.init)
      as [[b|e] w]; cbn in Hl |- *; [destruct (at_end _)|]; cbn; exact Hl. }
  destruct (at_end (ending audio)); unfold of_queue; cbn; by rewrite H.
Qed.

(** The producer of the Synthesis Stage over a stream: it waits when the
    stream stays open, and only closes the synthesizer when the stream ends
    or breaks. *)
Lemma tts_producer_spec eventStream :
  match ending eventStream with
  | Open =>
      fst (tts_producer eventStream Synthesis.init) = Waiting
      ∧ tts_closes (Synthesis.tts_calls (snd (tts_producer eventStream Synthesis.init)))
        = 0%nat
  | Ended =>
      fst (tts_producer eventStream Synthesis.init) = Returned
      ∧ tts_closes (Synthesis.tts_calls (snd (tts_producer eventStream Synthesis.init)))
        = 1%nat
  | Broken e =>
      fst (tts_producer eventStream Synthesis.init) = Failed e
      ∧ tts_closes (Synthesis.tts_calls (snd (tts_producer eventStream Synthesis.init)))
        = 1%nat
  end.
Proof.
  unfold tts_producer, try_finally_task, until_end.
  destruct (producer_loop_calls (delivered eventStream) [] Synthesis.init)
    as (b & w & texts & E & C).
  rewrite E. destruct (ending eventStream); cbn -[tts_closes]; rewrite C;
    cbn -[tts_closes]; by rewrite ?tts_closes_app, tts_closes_sendText.
Qed.

(** C6. The claim fails on every session. Closing the connection cancels
    the input channel only: the producer of the Transcription Stage sees the
    end of its input and closes the recognizer, once. But no task cancels the
    passthrough queue of a stage, so that the output of the Transcription
    Stage never delivers its end, the Agent Stage never returns (it waits for
    the next event, or has thrown), and the output of the Synthesis Stage,
    which the loop that [onClose] awaits reads, never delivers its end. While
    the Agent Stage waits, the producer of the Synthesis Stage waits as well
    and the synthesizer is not closed; it is closed, once, only when the
    Agent Stage has thrown. *)
Theorem stages_never_complete c frames :
  stt_closes (stt_calls c frames) = 1%nat
  ∧ ending (transcriptEventStream c) = Open
  ∧ ending (outputEventStream c) = Open
  ∧ match agent_outcome c with
    | Returned => False
    | Waiting =>
        fst (tts_run c) = Waiting
        ∧ tts_closes (Synthesis.tts_calls (snd (tts_run c))) = 0%nat
    | Failed e =>
        fst (tts_run c) = Failed e
        ∧ tts_closes (Synthesis.tts_calls (snd (tts_run c))) = 1%nat
    end.
Proof.
  split; [apply stt_closed_once|]. split; [apply sttStream_open|].
  split; [apply ttsStream_open|].
  unfold agent_outcome, tts_run.
  pose proof (tts_producer_spec (agentEventStream (env c) (transcriptEventStream c)))
    as H.
  unfold agentEventStream in *. unfold agentStream, for_await, until_end in *.
  unfold transcriptEventStream in *. rewrite sttStream_open in *.
  destruct (for_of _ _ _) as [[[]|e] w]; exact H.
Qed.

End Teardown.

Section MoreInstances.
Import Props Samples.

Lemma addToOrder_then_removeFromOrder_witness :
  Forall (λ i, ¬ eq_ignore_case (Order.item i) "Chips") (items_of None two_lines)
  ∧ (Order.removeFromOrder "Chips" None
       (Order.addToOrder "Chips" 2 None None two_lines).2).2
    = <[default "default" None := items_of None two_lines]> two_lines.
Proof.
  assert (Forall (λ i, ¬ eq_ignore_case (Order.item i) "Chips")
            (items_of None two_lines)) as H.
  { change (items_of None two_lines) with [turkey; blt]. by repeat constructor. }
  split; [exact H|].
  exact (addToOrder_then_removeFromOrder "Chips" 2 None None two_lines H).
Defined.

Lemma cancelOrder_clears_the_order_witness :
  "nobody" ≠ default "default" None
  ∧ (Order.cancelOrder (Some "changed my mind") None two_lines).2 !! "nobody"
    = two_lines !! "nobody".
Proof.
  assert ("nobody" ≠ default "default" None) as H by done.
  split; [exact H|].
  exact (proj2 (proj2 (proj2
           (cancelOrder_clears_the_order (Some "changed my mind") None two_lines)))
           "nobody" H).
Defined.

Lemma unfinished_turn_is_not_sent_witness :
  Forall (λ e, is_agent_end e = false) second_turn
  ∧ Synthesis.sent_texts
      (snd (Synthesis.producer (first_turn ++ second_turn) Synthesis.init))
    = Synthesis.sent_texts (snd (Synthesis.producer first_turn Synthesis.init)).
Proof.
  assert (Forall (λ e, is_agent_end e = false) second_turn) as H
    by (by repeat constructor).
  split; [exact H|].
  exact (unfinished_turn_is_not_sent first_turn second_turn H).
Defined.

Lemma agentStream_passthrough_witness :
  Forall (λ e, is_stt_output e = false) partials
  ∧ Agent.agentStream env_menu partials Agent.init
    = (Ok tt, Agent.mkWorld partials 1 0 []).
Proof.
  assert (Forall (λ e, is_stt_output e = false) partials) as H
    by (by repeat constructor).
  split; [exact H|].
  exact (agentStream_passthrough env_menu partials H).
Defined.

(** The failures of the sample agent that fails are rendered. *)
Lemma env_failing_rendered : errors_rendered env_failing.
Proof. intros calls call e [= <-]. by eexists. Qed.

Lemma one_turn_end_per_final_transcript_witness :
  errors_rendered env_failing
  ∧ Forall is_transcript two_turns
  ∧ turn_ends (Agent.output env_failing two_turns) = final_transcripts two_turns.
Proof.
  assert (Forall is_transcript two_turns) as H by (by repeat constructor).
  split; [exact env_failing_rendered|]. split; [exact H|].
  exact (one_turn_end_per_final_transcript env_failing two_turns
           env_failing_rendered H).
Defined.

Lemma turn_end_follows_a_rendered_failure_witness :
  served env_failing [stt_chunk "what" 0]
  ∧ failure_rendered
      (agent_of env_failing (agent_calls_on env_failing [stt_chunk "what" 0])
         (turn_call "what sandwiches do you have"))
  ∧ ∃ new ts_end tail,
      served env_failing
        ([stt_chunk "what" 0] ++ [stt_output "what sandwiches do you have" 1])
      ∧ Agent.output env_failing
          ([stt_chunk "what" 0]
           ++ stt_output "what sandwiches do you have" 1 :: [stt_output "hey" 2])
        = Agent.output env_failing [stt_chunk "what" 0]
            ++ stt_output "what sandwiches do you have" 1 :: new
            ++ agent_end ts_end :: tail
      ∧ Forall quiet new
      ∧ continues_with [stt_output "hey" 2] tail.
Proof.
  split; [reflexivity|]. split; [apply env_failing_rendered|].
  apply (turn_end_follows_a_rendered_failure env_failing [stt_chunk "what" 0]
           "what sandwiches do you have" 1 [stt_output "hey" 2]).
  - reflexivity.
  - apply env_failing_rendered.
Defined.

Lemma pipeline_speaks_the_agent_texts_witness :
  errors_rendered env_failing
  ∧ Forall is_transcript two_turns
  ∧ Synthesis.sent_texts
      (snd (Synthesis.producer (Agent.output env_failing two_turns) Synthesis.init))
    = spoken env_failing [] two_turns.
Proof.
  assert (Forall is_transcript two_turns) as H by (by repeat constructor).
  split; [exact env_failing_rendered|]. split; [exact H|].
  exact (pipeline_speaks_the_agent_texts env_failing two_turns
           env_failing_rendered H).
Defined.

(** What the sample sessions say. *)
Example two_turns_spoken :
  spoken env_menu [] two_turns = [Agent.GREETING; "We have the Classic BLT."]
  ∧ spoken env_failing [] two_turns = [Agent.GREETING; "Let me"].
Proof. by vm_compute. Qed.

Lemma fast_path_iff_witness :
  (∃ before s after,
     "  Good Morning. " = before +:+ s +:+ after
     ∧ all_white_space before ∧ all_white_space after ∧ is_greeting s)
  ∧ Agent.greetingPattern_test (trim "  Good Morning. ") = true.
Proof.
  assert (∃ before s after,
            "  Good Morning. " = before +:+ s +:+ after
            ∧ all_white_space before ∧ all_white_space after ∧ is_greeting s) as H.
  { exists "  ", "Good Morning.", " ". split; [done|].
    split; [by repeat constructor|]. split; [by repeat constructor|].
    exists "good morning", ".". split; [repeat constructor|]. split; [by right|done]. }
  split; [exact H|].
  exact (proj2 (fast_path_iff "  Good Morning. ") H).
Defined.

Lemma classifyTask_needs_keyword_witness :
  (Subagents.classifyTask "Add a sandwich" = Subagents.ORDER
   ∧ ∃ kw, kw ∈ Subagents.orderKeywords ∧ kw ≠ "i'll have"
           ∧ includes (toLowerCase "Add a sandwich") kw = true)
  ∧ (Subagents.classifyTask "What is the price?" = Subagents.CUSTOMER_SERVICE
     ∧ ∃ kw, kw ∈ Subagents.serviceKeywords
             ∧ includes (toLowerCase "What is the price?") kw = true).
Proof.
  split.
  - assert (Subagents.classifyTask "Add a sandwich" = Subagents.ORDER) as H
      by (by vm_compute).
    split; [exact H|].
    exact (proj1 (classifyTask_needs_keyword "Add a sandwich") H).
  - assert (Subagents.classifyTask "What is the price?" = Subagents.CUSTOMER_SERVICE)
      as H by (by vm_compute).
    split; [exact H|].
    exact (proj2 (classifyTask_needs_keyword "What is the price?") H).
Defined.

(** A task whose only order keyword comes with "have" is not routed to the
    order agent. *)
Example ill_have_is_general :
  Subagents.classifyTask "I'll have the Turkey Club" = Subagents.GENERAL.
Proof. by vm_compute. Qed.

(** The sample session after its connection is closed: the recognizer was
    closed, the greeting was sent to the synthesizer, and then the Agent
    Stage and the producer of the Synthesis Stage wait: the synthesizer is
    not closed, and the output of the pipeline has no end. *)
Example closed_session_waits :
  Session.stt_calls closed_session one_frame
  = [Transcription.SendAudio [Byte.x01; Byte.x02]; Transcription.Close]
  ∧ Session.agent_outcome closed_session = Session.Waiting
  ∧ fst (Session.tts_run closed_session) = Session.Waiting
  ∧ Synthesis.tts_calls (snd (Session.tts_run closed_session))
    = [Synthesis.SendText Agent.GREETING]
  ∧ Session.outputEventStream closed_session
    = Session.mkStream
        [stt_chunk "hel" 1; stt_output "hello" 2;
         agent_chunk Agent.GREETING 1700000000000; agent_end 1700000000001;
         tts_chunk "UklGRg==" 3]
        Session.Open.
Proof. by vm_compute. Qed.

End MoreInstances.
